(** * LibTrace: image map, symbol resolution, state sink, SID decoder and
      ETW parser front-end, embedded from the C++ sources.

    Layout: one module per C++ namespace ([base], [symbols], [event],
    [parser], [state], [etw]) holding the embedded definitions, followed by
    the modules of facts proved about them. *)

From Stdlib Require Import ZArith List Bool Lia Sorting.Sorted.
From Stdlib Require Import Strings.Byte Strings.Ascii Strings.String.
From Stdlib Require Floats.SpecFloat.
From stdpp Require Import gmap strings list.

Local Open Scope Z_scope.
Local Set Warnings "-register-all".

(** ** namespace base : fixed-width integers (base/types.h) *)
Module base.

(** [uint64_t] values are integers in [0, 2^64); arithmetic wraps. *)
Definition uint64_max : Z := 2 ^ 64 - 1.
Definition wrap64 (z : Z) : Z := z mod 2 ^ 64.
Definition add64 (a b : Z) : Z := wrap64 (a + b).
Definition sub64 (a b : Z) : Z := wrap64 (a - b).
Definition is_uint64 (z : Z) : Prop := 0 <= z <= uint64_max.

(** [std::wstring]: the sequence of its code units. *)
Abbreviation wstring := (list Z).

(** Modelled from the spec: [base::WStringEndsWith] (base/string_utils) is
    not among the sources; the spec speaks of "paths whose suffix is not the
    expected extension", so this is the plain suffix test. *)
Fixpoint wstring_eqb (a b : wstring) : bool :=
  match a, b with
  | [], [] => true
  | x :: a', y :: b' => (x =? y) && wstring_eqb a' b'
  | _, _ => false
  end.

Definition WStringEndsWith (str ending : wstring) : bool :=
  (length ending <=? length str)%nat &&
  wstring_eqb (skipn (length str - length ending) str) ending.

End base.

(** ** namespace symbols : images, symbols and the resolver *)
Module symbols.
Import base.

(** Modelled from the spec: [symbols::Image] (symbols/image.h) is not among
    the sources. The spec gives its four members and says that two images
    are equal iff all four are; [size] is an unsigned integer that is added
    to a 64-bit address in [FindImage]. *)
Record Image : Type := mkImage {
  size : Z;
  checksum : Z;
  timestamp : Z;
  filename : wstring
}.

#[global] Instance Image_eq_dec : EqDecision Image.
Proof. solve_decision. Defined.

#[global] Instance Image_countable : Countable Image.
Proof.
  refine (inj_countable'
            (fun i => (size i, checksum i, timestamp i, filename i))
            (fun t => match t with (s, c, ts, f) => mkImage s c ts f end) _).
  intros []; reflexivity.
Defined.

(** class Symbol (symbols/symbol.h), with its private members. *)
Record Symbol : Type := mkSymbol {
  name_ : wstring;
  offset_ : Z;
  size_ : Z
}.

(** [std::map<base::Address, Image>]: the entries in iteration order, that
    is by ascending key, each key at most once. An iterator is the index of
    an entry; [end()] is the length. *)
Abbreviation Images := (list (Z * Image)).

Abbreviation ImageSymbols := (list Symbol).

(** [images[key] = image]: overwrite the entry at [key] or insert it at its
    place in the order. *)
Fixpoint map_assign (key : Z) (image : Image) (images : Images) : Images :=
  match images with
  | [] => [(key, image)]
  | (k, v) :: rest =>
      if key <? k then (key, image) :: (k, v) :: rest
      else if key =? k then (key, image) :: rest
      else (k, v) :: map_assign key image rest
  end.

(** [images.erase(key)]. *)
Fixpoint map_erase (key : Z) (images : Images) : Images :=
  match images with
  | [] => []
  | (k, v) :: rest =>
      if key =? k then rest else (k, v) :: map_erase key rest
  end.

(** [images.find(key)], as the mapped value. *)
Fixpoint map_find (key : Z) (images : Images) : option Image :=
  match images with
  | [] => None
  | (k, v) :: rest => if key =? k then Some v else map_find key rest
  end.

(** [std::upper_bound(first, last, value, comp)] over a sequence: iterator
    to the first element [e] with [comp value e], [end()] when there is
    none. *)
Fixpoint upper_bound {A V : Type} (comp : V -> A -> bool)
    (value : V) (range : list A) : nat :=
  match range with
  | [] => O
  | e :: rest =>
      if comp value e then O else S (upper_bound comp value rest)
  end.

(** [images.upper_bound(address)]: iterator to the first entry whose key is
    greater than [address], [end()] when there is none. *)
Definition map_upper_bound (address : Z) (images : Images) : nat :=
  upper_bound (fun a (entry : Z * Image) => a <? fst entry) address images.

(** [SymbolsResolver::pid_to_images_]:
    [std::unordered_map<base::Pid, Images>]. *)
Abbreviation PidToImages := (gmap Z Images).

(** [SymbolsResolver::LoadImage]:
    [pid_to_images_[pid][base_address] = image]. The outer [operator[]]
    creates an empty bucket for a pid seen for the first time. *)
Definition LoadImage (pid_to_images : PidToImages)
    (pid base_address : Z) (image : Image) : PidToImages :=
  <[pid := map_assign base_address image
             (default [] (pid_to_images !! pid))]> pid_to_images.

(** [SymbolsResolver::UnloadImage]. *)
Definition UnloadImage (pid_to_images : PidToImages)
    (pid base_address : Z) : PidToImages :=
  match pid_to_images !! pid with
  | None => pid_to_images
  | Some process_images =>
      <[pid := map_erase base_address process_images]> pid_to_images
  end.

(** [SymbolsResolver::FindImage]. The result is the returned pointer
    together with the value stored through [image_base_address]; [None] is
    [nullptr] (the out-parameter is then left untouched). The sum
    [image_it->first + image_it->second.size] is an unsigned 64-bit sum. *)
Definition FindImage (pid_to_images : PidToImages)
    (pid address : Z) : option (Z * Image) :=
  match pid_to_images !! pid with
  | None => None
  | Some process_images =>
      if (length process_images =? 0)%nat then None
      else
        let image_it := map_upper_bound address process_images in
        if (image_it =? 0)%nat then None
        else
          let image_it := (image_it - 1)%nat in
          if (image_it =? length process_images)%nat then None
          else
            match process_images !! image_it with
            | None => None
            | Some (first, second) =>
                if address >=? add64 first (size second) then None
                else Some (first, second)
            end
  end.

(** [SymbolOffsetComparison] (anonymous namespace of symbols_resolver.cc). *)
Definition SymbolOffsetComparison (offset : Z) (symbol : Symbol) : bool :=
  offset <? offset_ symbol.

(** Modelled from the spec: [std::sort(image_symbols.begin(),
    image_symbols.end())] orders by [Symbol]'s [operator<], which is not
    among the sources; the spec says that a symbol table "is sorted by
    offset ascending on build". Insertion by offset, behind equal
    offsets. *)
Fixpoint sort_insert (s : Symbol) (sorted : ImageSymbols) : ImageSymbols :=
  match sorted with
  | [] => [s]
  | t :: rest =>
      if offset_ s <? offset_ t then s :: t :: rest
      else t :: sort_insert s rest
  end.

Definition sort_symbols (image_symbols : ImageSymbols) : ImageSymbols :=
  fold_left (fun sorted s => sort_insert s sorted) image_symbols [].

(** The resolver object: the image map and, when built with
    [USE_DBGHELP], the symbol cache keyed by image. *)
Record SymbolsResolver : Type := mkSymbolsResolver {
  pid_to_images_ : gmap Z Images;
  symbol_cache_ : gmap Image ImageSymbols
}.

Definition SymbolsResolver_new : SymbolsResolver :=
  mkSymbolsResolver ∅ ∅.

Section Resolver.
(** The preprocessor symbol [USE_DBGHELP]. *)
Variable USE_DBGHELP : bool.
(** The symbols that [DbghelpWrapper::EnumerateSymbols] hands to its
    callback for an image, in call order (an external collaborator). *)
Variable EnumerateSymbols : Image -> list Symbol.

(** [SymbolsResolver::GetImageSymbols]: the table and the cache after
    the call. *)
Definition GetImageSymbols (symbol_cache : gmap Image ImageSymbols)
    (image : Image) : ImageSymbols * gmap Image ImageSymbols :=
  match symbol_cache !! image with
  | Some look => (look, symbol_cache)
  | None =>
      let image_symbols := sort_symbols (EnumerateSymbols image) in
      (image_symbols, <[image := image_symbols]> symbol_cache)
  end.

(** The search of [ResolveSymbol] in the table of one image; the sum
    [it->offset() + it->size()] is an unsigned 64-bit sum. *)
Definition resolve_in_table (image_symbols : ImageSymbols)
    (offset : Z) : option Symbol :=
  let it := upper_bound SymbolOffsetComparison offset image_symbols in
  if (it =? 0)%nat then None
  else
    let it := (it - 1)%nat in
    if (it =? length image_symbols)%nat then None
    else
      match image_symbols !! it with
      | None => None
      | Some s =>
          if offset >? add64 (offset_ s) (size_ s) then None
          else Some s
      end.

(** [SymbolsResolver::ResolveSymbol]: the symbol stored through [symbol]
    when the call returns true, and the resolver after the call. *)
Definition ResolveSymbol (r : SymbolsResolver) (pid address : Z)
    : option Symbol * SymbolsResolver :=
  if USE_DBGHELP then
    match FindImage (pid_to_images_ r) pid address with
    | None => (None, r)
    | Some (image_base_address, image) =>
        let '(image_symbols, cache) :=
          GetImageSymbols (symbol_cache_ r) image in
        let offset := sub64 address image_base_address in
        (resolve_in_table image_symbols offset,
         mkSymbolsResolver (pid_to_images_ r) cache)
    end
  else (None, r).

End Resolver.

End symbols.

(** ** namespace event : values and events *)
Module event.
Import base.

(** Modelled from the spec: the value classes (event/value.h) are not among
    the sources. The spec's data model gives the kinds, and the decoder
    tests name the classes; a [StructValue] is the ordered sequence of its
    named fields, an [ArrayValue] the sequence of its elements. Only the
    kinds that the embedded code reads or builds are listed (the
    floating-point leaves are not). *)
Inductive Value : Type :=
| CharValue (v : Z)
| UCharValue (v : Z)
| ShortValue (v : Z)
| UShortValue (v : Z)
| IntValue (v : Z)
| UIntValue (v : Z)
| LongValue (v : Z)
| ULongValue (v : Z)
| StringValue (s : string)
| WStringValue (w : wstring)
| StructValue (fields : list (string * Value))
| ArrayValue (elements : list Value).

Abbreviation Fields := (list (string * Value)).

(** Modelled from the spec: [struct.get_field(name)], "name-based lookup
    returns the first match". *)
Fixpoint get_field (name : string) (fields : Fields) : option Value :=
  match fields with
  | [] => None
  | (n, v) :: rest =>
      if String.eqb n name then Some v else get_field name rest
  end.

Definition GetField (v : Value) (name : string) : option Value :=
  match v with
  | StructValue fields => get_field name fields
  | _ => None
  end.

(** Modelled from the spec: [struct.add_field(name, value)], "append;
    duplicate names are permitted". The C++ member returns a bool; [None]
    stands for false. *)
Definition AddField (fields : Fields) (name : string) (value : Value)
    : option Fields :=
  Some (fields ++ [(name, value)]).

(** Modelled from the spec: the widening accessors, which "return absent
    for missing field or wrong kind" and widen "any unsigned integer" to
    the width asked for. *)
Definition GetAsUInteger (v : Value) : option Z :=
  match v with
  | UCharValue x | UShortValue x | UIntValue x => Some x
  | _ => None
  end.

Definition GetAsULong (v : Value) : option Z :=
  match v with
  | UCharValue x | UShortValue x | UIntValue x | ULongValue x => Some x
  | _ => None
  end.

Definition GetAsString (v : Value) : option string :=
  match v with StringValue s => Some s | _ => None end.

Definition GetAsWString (v : Value) : option wstring :=
  match v with WStringValue w => Some w | _ => None end.

Definition GetAsArray (v : Value) : option (list Value) :=
  match v with ArrayValue elements => Some elements | _ => None end.

(** Modelled from the spec: the same accessors by field name. *)
Definition GetFieldAsUInteger (v : Value) (name : string) : option Z :=
  GetField v name ≫= GetAsUInteger.
Definition GetFieldAsULong (v : Value) (name : string) : option Z :=
  GetField v name ≫= GetAsULong.
Definition GetFieldAsString (v : Value) (name : string) : option string :=
  GetField v name ≫= GetAsString.
Definition GetFieldAsWString (v : Value) (name : string) : option wstring :=
  GetField v name ≫= GetAsWString.
Definition GetFieldAsArray (v : Value) (name : string)
    : option (list Value) :=
  GetField v name ≫= GetAsArray.

(** Modelled from the spec: the well-known header field names
    ([event::kOperationFieldName] and the like, event/event.h). *)
Definition kOperationFieldName : string := "operation".
Definition kCategoryFieldName : string := "category".
Definition kProcessIdFieldName : string := "process_id".
Definition kThreadIdFieldName : string := "thread_id".
Definition kProcessorNumberFieldName : string := "processor_number".

(** class Event, as event_unittest.cc builds and reads it: a timestamp, a
    header and a payload. *)
Record Event : Type := mkEvent {
  timestamp : Z;
  header : Value;
  payload : Value
}.

End event.

(** ** namespace state : the state sink *)
Module state.
Import base.

Definition kImageCategory : string := "Image".
Definition kImageLoadOperation : string := "Load".
Definition kImageDCStartOperation : string := "DCStart".
Definition kImageUnloadOperation : string := "Unload".
Definition kImageKernelBase : string := "KernelBase".
Definition kStackWalkCategory : string := "StackWalk".
Definition kStackOperation : string := "Stack".

(** class CurrentState: its only member is the resolver [symbols_]. *)
Record CurrentState : Type := mkCurrentState {
  symbols_ : symbols.SymbolsResolver
}.

Definition CurrentState_new : CurrentState :=
  mkCurrentState symbols.SymbolsResolver_new.

Definition with_images (s : CurrentState)
    (images : gmap Z symbols.Images) : CurrentState :=
  mkCurrentState
    (symbols.mkSymbolsResolver images (symbols.symbol_cache_ (symbols_ s))).

Section Sink.
Variable USE_DBGHELP : bool.
Variable EnumerateSymbols : symbols.Image -> list symbols.Symbol.

(** [CurrentState::OnImageLoad]. The [||] chain stops at the first
    accessor that fails; what the earlier ones stored lives in locals. *)
Definition OnImageLoad (s : CurrentState) (e : event.Event)
    : CurrentState :=
  match event.GetFieldAsUInteger (event.payload e) "ModuleSize" with
  | None => s
  | Some size =>
  match event.GetFieldAsUInteger (event.payload e) "ImageCheckSum" with
  | None => s
  | Some checksum =>
  match event.GetFieldAsUInteger (event.payload e) "TimeDateStamp" with
  | None => s
  | Some timestamp =>
  match event.GetFieldAsWString (event.payload e) "ImageFileName" with
  | None => s
  | Some filename =>
  match event.GetFieldAsULong (event.payload e) "BaseAddress" with
  | None => s
  | Some base_address =>
  match event.GetFieldAsULong (event.header e)
          event.kProcessIdFieldName with
  | None => s
  | Some pid =>
      with_images s
        (symbols.LoadImage (symbols.pid_to_images_ (symbols_ s))
           pid base_address
           (symbols.mkImage size checksum timestamp filename))
  end end end end end end.

(** [CurrentState::OnImageUnload]. *)
Definition OnImageUnload (s : CurrentState) (e : event.Event)
    : CurrentState :=
  match event.GetFieldAsULong (event.payload e) "BaseAddress" with
  | None => s
  | Some base_address =>
  match event.GetFieldAsULong (event.header e)
          event.kProcessIdFieldName with
  | None => s
  | Some pid =>
      with_images s
        (symbols.UnloadImage (symbols.pid_to_images_ (symbols_ s))
           pid base_address)
  end end.

(** The loop of [OnStackWalk]: the resolver after the walk; the walk
    stops at the first element that is not an address. The names
    collected in [symbolized_stack] are returned beside it. *)
Fixpoint symbolize (r : symbols.SymbolsResolver) (pid : Z)
    (stack : list event.Value) (symbolized_stack : list wstring)
    : symbols.SymbolsResolver * list wstring :=
  match stack with
  | [] => (r, symbolized_stack)
  | address_value :: rest =>
      match event.GetAsULong address_value with
      | None => (r, symbolized_stack)
      | Some address =>
          match symbols.ResolveSymbol USE_DBGHELP EnumerateSymbols
                  r pid address with
          | (Some symbol, r') =>
              symbolize r' pid rest
                (symbolized_stack ++ [symbols.name_ symbol])
          | (None, r') => symbolize r' pid rest symbolized_stack
          end
      end
  end.

(** [CurrentState::OnStackWalk]. *)
Definition OnStackWalk (s : CurrentState) (e : event.Event)
    : CurrentState :=
  match event.GetFieldAsULong (event.payload e) "EventTimeStamp" with
  | None => s
  | Some event_ts =>
  match event.GetFieldAsULong (event.payload e) "StackProcess" with
  | None => s
  | Some pid =>
  match event.GetFieldAsULong (event.payload e) "StackThread" with
  | None => s
  | Some tid =>
  match event.GetFieldAsArray (event.payload e) "Stack" with
  | None => s
  | Some stack => mkCurrentState (fst (symbolize (symbols_ s) pid stack []))
  end end end end.

(** [CurrentState::OnEvent]. *)
Definition OnEvent (s : CurrentState) (e : event.Event) : CurrentState :=
  match event.GetFieldAsString (event.header e)
          event.kCategoryFieldName with
  | None => s
  | Some category =>
  match event.GetFieldAsString (event.header e)
          event.kOperationFieldName with
  | None => s
  | Some operation =>
      if String.eqb category kImageCategory then
        if String.eqb operation kImageLoadOperation
           || String.eqb operation kImageDCStartOperation
        then OnImageLoad s e
        else if String.eqb operation kImageUnloadOperation
        then OnImageUnload s e
        else if String.eqb operation kImageKernelBase
        then s
        else s
      else if String.eqb category kStackWalkCategory
              && String.eqb operation kStackOperation
      then OnStackWalk s e
      else s
  end end.

End Sink.

End state.

(** ** namespace parser : the byte decoder and the shared composite decoders *)
Module parser.
Import base.

(** Modelled from the spec: class [Decoder] (parser/decoder.h) is not among
    the sources. The spec describes it as a cursor "(bytes, position)" with
    little-endian typed reads that advance the cursor and fail when they
    "would cross end-of-buffer", a [lookup(offset)] that reads "a byte
    relative to current position without advancing", and
    [remaining_bytes()], the unread count. A read that fails leaves the
    cursor where it was. *)
Record Decoder : Type := mkDecoder {
  buffer : list byte;
  position : nat
}.

(** Modelled from the spec: the decoder over a payload given as a pointer
    ([None] for a null pointer) and a length. *)
Definition Decoder_new (payload : option (list byte)) (payload_size : nat)
    : Decoder :=
  mkDecoder (firstn payload_size (default [] payload)) 0.

(** Modelled from the spec: "scalar encoding is little-endian
    throughout". *)
Definition byte_value (b : byte) : Z := Z.of_N (Byte.to_N b).

Fixpoint le_combine (bytes : list byte) : Z :=
  match bytes with
  | [] => 0
  | b :: rest => Z.lor (byte_value b) (Z.shiftl (le_combine rest) 8)
  end.

(** Modelled from the spec: the unread bytes, their count
    ([remaining_bytes()]) and the peek ([lookup(offset)]); a peek past the
    end of the buffer, which the sources never make, gives 0. *)
Definition unread (d : Decoder) : list byte :=
  skipn (position d) (buffer d).

Definition RemainingBytes (d : Decoder) : Z :=
  Z.of_nat (length (buffer d) - position d).

Definition Lookup (d : Decoder) (offset : nat) : Z :=
  match buffer d !! (position d + offset)%nat with
  | Some b => byte_value b
  | None => 0
  end.

(** A decoding step: its result ([None] for a failed step) and the cursor
    after it. *)
Definition Decoding (A : Type) : Type := Decoder -> option A * Decoder.

Definition ret {A : Type} (a : A) : Decoding A := fun d => (Some a, d).

Definition bind {A B : Type} (m : Decoding A) (f : A -> Decoding B)
    : Decoding B :=
  fun d =>
    match m d with
    | (Some a, d') => f a d'
    | (None, d') => (None, d')
    end.

Definition lift {A : Type} (o : option A) : Decoding A :=
  fun d => (o, d).

Notation "x <- m ;; k" := (bind m (fun x => k))
  (at level 90, m at next level, right associativity).

(** Modelled from the spec: a read of [n] bytes, which "fails" when it
    "would cross end-of-buffer" and advances the cursor otherwise. *)
Definition read_bytes (n : nat) : Decoding (list byte) :=
  fun d =>
    if (position d + n <=? length (buffer d))%nat
    then (Some (firstn n (unread d)),
          mkDecoder (buffer d) (position d + n))
    else (None, d).

(** The value classes that the composite decoders below read. *)
Inductive Kind : Type := KUChar | KUInt | KULong.

Definition sizeof (k : Kind) : nat :=
  match k with KUChar => 1 | KUInt => 4 | KULong => 8 end%nat.

Definition make (k : Kind) (v : Z) : event.Value :=
  match k with
  | KUChar => event.UCharValue v
  | KUInt => event.UIntValue v
  | KULong => event.ULongValue v
  end.

(** Modelled from the spec: [decoder->Decode<T>()], the typed read of one
    scalar. *)
Definition Decoder_Decode (k : Kind) : Decoding event.Value :=
  bytes <- read_bytes (sizeof k) ;; ret (make k (le_combine bytes)).

(** Modelled from the spec: the helpers [Decode<T>(name, decoder, fields)]
    and [DecodeArray<T>(name, length, decoder, fields)]
    (parser/etw/etw_raw_payload_decoder_utils.h) are not among the sources;
    they read one value, or [length] values into an array, and add the
    result to [fields] under [name]. *)
Definition Decode (k : Kind) (name : string) (fields : event.Fields)
    : Decoding event.Fields :=
  v <- Decoder_Decode k ;; lift (event.AddField fields name v).

Fixpoint decode_elements (k : Kind) (length : nat)
    : Decoding (list event.Value) :=
  match length with
  | O => ret []
  | S n =>
      v <- Decoder_Decode k ;;
      rest <- decode_elements k n ;;
      ret (v :: rest)
  end.

Definition DecodeArray (k : Kind) (name : string) (length : Z)
    (fields : event.Fields) : Decoding event.Fields :=
  elements <- decode_elements k (Z.to_nat length) ;;
  lift (event.AddField fields name (event.ArrayValue elements)).

(** [DecodeUInteger] (etw_raw_payload_decoder_utils.cc). *)
Definition DecodeUInteger (name : string) (is_64_bit : bool)
    (fields : event.Fields) : Decoding event.Fields :=
  if is_64_bit then Decode KULong name fields
  else Decode KUInt name fields.

(** [DecodeSID] (etw_raw_payload_decoder_utils.cc). The two [DCHECK]s,
    debug-build assertions that the revision is 1 and that there are at
    most 15 sub-authorities, read nothing more and change nothing; they are
    left out. *)
Definition DecodeSID (name : string) (is_64_bit : bool)
    (fields : event.Fields) : Decoding event.Fields :=
  fun decoder =>
    if RemainingBytes decoder <? 3 * 8 then (None, decoder)
    else
      (sid <- DecodeUInteger "PSid" is_64_bit [] ;;
       sid <- Decode KUInt "Attributes" sid ;;
       _ <- (if is_64_bit
             then padding <- Decoder_Decode KUInt ;; ret tt
             else ret tt) ;;
       fun decoder =>
         let revision := Lookup decoder 0 in
         let subAuthorityCount := Lookup decoder 1 in
         let length := 4 * subAuthorityCount + 8 in
         (sid <- DecodeArray KUChar "Sid" length sid ;;
          lift (event.AddField fields name (event.StructValue sid)))
           decoder) decoder.

End parser.

(** ** namespace parser::etw : the ETW parser front-end *)
Module etw.
Import base.

(** The Windows [GUID] structure. *)
Record GUID : Type := mkGUID {
  Data1 : Z;
  Data2 : Z;
  Data3 : Z;
  Data4 : list Z
}.

Definition hex_digit (n : Z) : ascii :=
  nth (Z.to_nat n) (list_ascii_of_string "0123456789ABCDEF") "0"%char.

(** [%0<digits>X] of a value that fits in that many digits. *)
Fixpoint hex_fixed (digits : nat) (n : Z) : string :=
  match digits with
  | O => EmptyString
  | S d =>
      String.append (hex_fixed d (n / 16))
        (String (hex_digit (n mod 16)) EmptyString)
  end.

(** [GuidToString]. *)
Definition GuidToString (guid : GUID) : string :=
  let d4 i := hex_fixed 2 (nth i (Data4 guid) 0) in
  String.concat "-"
    [hex_fixed 8 (Data1 guid); hex_fixed 4 (Data2 guid);
     hex_fixed 4 (Data3 guid);
     String.append (d4 0%nat) (d4 1%nat);
     String.concat ""
       [d4 2%nat; d4 3%nat; d4 4%nat; d4 5%nat; d4 6%nat; d4 7%nat]].

(** What [ProcessEvent] reads of an [EVENT_RECORD]. [TimeStamp] is the
    [QuadPart] of the header time stamp, a signed 64-bit integer. *)
Record EVENT_RECORD : Type := mkEVENT_RECORD {
  ProviderId : GUID;
  Version : Z;
  Opcode : Z;
  Is64BitHeader : bool;
  TimeStamp : Z;
  ProcessId : Z;
  ThreadId : Z;
  ProcessorNumber : Z;
  UserData : option (list byte);
  UserDataLength : nat
}.

(** What [Parse] reads of the [EVENT_TRACE_LOGFILE] header. *)
Record LogfileHeader : Type := mkLogfileHeader {
  StartTime : Z;
  PerfFreq : Z
}.

Definition kEtlExtension : wstring := [46; 101; 116; 108].

Section Parser.
(** The C++ type [double] and the operations on it that the parser
    uses: conversions from the two 64-bit integer types, division,
    product, and the cast back to [uint64_t]. *)
Variable double : Type.
Variable double_zero : double.
Variable kPerfPeriodMultiplier : double.
Variable double_of_int64 : Z -> double.
Variable double_of_uint64 : Z -> double.
Variable double_div : double -> double -> double.
Variable double_mul : double -> double -> double.
Variable uint64_of_double : double -> Z.

(** [DecodeRawETWKernelPayload] (etw_raw_kernel_payload_decoder.cc, not
    among the sources): on success the operation, the category and the
    decoded payload. *)
Variable DecodeRawETWKernelPayload :
  string -> Z -> Z -> bool -> option (list byte) -> nat ->
  option (string * string * event.Value).

(** The external trace reader: [OpenTrace] gives the header of a trace
    file or fails; [ProcessTrace] delivers the records of the opened
    files, in order. *)
Variable OpenTrace : wstring -> option LogfileHeader.
Variable ProcessTrace : list wstring -> list EVENT_RECORD.

(** class ETWParser; the callback pointer [event_callback_] is set and
    cleared by [Parse] and carries no data. *)
Record ETWParser : Type := mkETWParser {
  traces_ : list wstring;
  first_event_system_ts_ : Z;
  first_event_raw_ts_ : Z;
  perf_period_ : double
}.

(** [ETWParser::ETWParser]. *)
Definition ETWParser_new : ETWParser :=
  mkETWParser [] 0 0 double_zero.

(** [ETWParser::AddTraceFile]: the returned bool and the parser after
    the call. *)
Definition AddTraceFile (p : ETWParser) (path : wstring)
    : bool * ETWParser :=
  if negb (length (traces_ p) =? 0)%nat then (false, p)
  else if negb (WStringEndsWith path kEtlExtension) then (false, p)
  else
    (true,
     mkETWParser (traces_ p ++ [path]) (first_event_system_ts_ p)
       (first_event_raw_ts_ p) (perf_period_ p)).

(** [DecodeRawETWPayload] (anonymous namespace). *)
Definition DecodeRawETWPayload (provider_id : string)
    (version opcode : Z) (is_64_bit : bool)
    (payload : option (list byte)) (payload_size : nat)
    : option (string * string * event.Value) :=
  match DecodeRawETWKernelPayload provider_id version opcode is_64_bit
          payload payload_size with
  | Some decoded => Some decoded
  | None => None
  end.

(** The first statement of [ProcessEvent]: record the raw timestamp when
    none is recorded. *)
Definition latch_raw_ts (p : ETWParser) (pevent : EVENT_RECORD)
    : ETWParser :=
  if first_event_raw_ts_ p =? 0
  then mkETWParser (traces_ p) (first_event_system_ts_ p)
         (wrap64 (TimeStamp pevent)) (perf_period_ p)
  else p.

(** The timestamp that [ProcessEvent] computes. *)
Definition system_ts (p : ETWParser) (pevent : EVENT_RECORD) : Z :=
  let raw_ts := wrap64 (TimeStamp pevent) in
  add64 (first_event_system_ts_ p)
    (uint64_of_double
       (double_mul
          (double_of_uint64 (sub64 raw_ts (first_event_raw_ts_ p)))
          (perf_period_ p))).

(** [ETWParser::ProcessEvent]: the parser after the call and the event
    sent to the callback, if any. *)
Definition ProcessEvent (p : ETWParser) (pevent : EVENT_RECORD)
    : ETWParser * option event.Event :=
  let p := latch_raw_ts p pevent in
  let provider_guid := GuidToString (ProviderId pevent) in
  match DecodeRawETWPayload provider_guid (Version pevent)
          (Opcode pevent) (Is64BitHeader pevent) (UserData pevent)
          (UserDataLength pevent) with
  | None => (p, None)
  | Some (operation, category, payload) =>
      let header :=
        event.StructValue
          [(event.kOperationFieldName, event.StringValue operation);
           (event.kCategoryFieldName, event.StringValue category);
           (event.kProcessIdFieldName,
            event.ULongValue (ProcessId pevent));
           (event.kThreadIdFieldName,
            event.ULongValue (ThreadId pevent));
           (event.kProcessorNumberFieldName,
            event.UCharValue (ProcessorNumber pevent))] in
      (p, Some (event.mkEvent (system_ts p pevent) header payload))
  end.

(** The callbacks of one [ProcessTrace] call: the parser after the
    records and the events sent to the callback, oldest first. *)
Fixpoint process_records (p : ETWParser) (records : list EVENT_RECORD)
    : ETWParser * list event.Event :=
  match records with
  | [] => (p, [])
  | pevent :: rest =>
      let '(p', sent) := ProcessEvent p pevent in
      let '(p'', events) := process_records p' rest in
      (p'', match sent with Some e => e :: events | None => events end)
  end.

(** The loop of [Parse] that opens the trace files: whether one failed,
    the files opened before it, and the parser. *)
Fixpoint open_traces (p : ETWParser) (traces : list wstring)
    (handles : list wstring) : bool * list wstring * ETWParser :=
  match traces with
  | [] => (false, handles, p)
  | trace :: rest =>
      match OpenTrace trace with
      | None => (true, handles, p)
      | Some h =>
          open_traces
            (mkETWParser (traces_ p) (wrap64 (StartTime h))
               (first_event_raw_ts_ p)
               (double_div kPerfPeriodMultiplier
                  (double_of_int64 (PerfFreq h))))
            rest (handles ++ [trace])
      end
  end.

(** [ETWParser::Parse]: the events sent to the callback and the parser
    after the call. *)
Definition Parse (p : ETWParser) : list event.Event * ETWParser :=
  let '(error, handles, p1) := open_traces p (traces_ p) [] in
  let events :=
    if negb error && negb (length handles =? 0)%nat
    then snd (process_records p1 (ProcessTrace handles))
    else [] in
  (events, mkETWParser (traces_ p) 0 0 double_zero).

End Parser.

Arguments mkETWParser {double} _ _ _ _.
Arguments traces_ {double} _.
Arguments first_event_system_ts_ {double} _.
Arguments first_event_raw_ts_ {double} _.
Arguments perf_period_ {double} _.
Arguments ETWParser_new {double} _.
Arguments AddTraceFile {double} _ _.
Arguments latch_raw_ts {double} _ _.
Arguments system_ts {double} _ _ _ _ _.
Arguments ProcessEvent {double} _ _ _ _ _ _.
Arguments process_records {double} _ _ _ _ _ _.
Arguments open_traces {double} _ _ _ _ _ _ _.
Arguments Parse {double} _ _ _ _ _ _ _ _ _ _ _.

(** Modelled from the spec: the provider GUID of the PerfInfo category, as
    the spec's provider table and the decoder tests give it. *)
Definition kPerfInfoProviderId : string :=
  "CE1DBFB4-137E-4DA6-87B0-3F59AA102CBC".

(** Modelled from the spec: the provider identity table, "a closed set". *)
Definition kProviderCategories : list (string * string) :=
  [("68FDD900-4A3E-11D1-84F4-0000F80464E3", "EventTraceEvent");
   ("2CB15D1D-5FC1-11D2-ABE1-00A0C911F518", "Image");
   ("CE1DBFB4-137E-4DA6-87B0-3F59AA102CBC", "PerfInfo");
   ("3D6FA8D0-FE05-11D0-9DDA-00C04FD7BA7C", "Process");
   ("3D6FA8D1-FE05-11D0-9DDA-00C04FD7BA7C", "Thread");
   ("9A280AC0-C8E0-11D1-84E2-00C04FB998A2", "Tcplp");
   ("AE53722E-C863-11D2-8659-00C04FA321A1", "Registry");
   ("90CBDC39-4A3E-11D1-84F4-0000F80464E3", "FileIO");
   ("3D6FA8D4-FE05-11D0-9DDA-00C04FD7BA7C", "DiskIO");
   ("DEF2FE46-7BD6-4B80-BD94-F57FE20D0CE3", "StackWalk");
   ("3D6FA8D3-FE05-11D0-9DDA-00C04FD7BA7C", "PageFault")].

Fixpoint lookup_string (key : string) (table : list (string * string))
    : option string :=
  match table with
  | [] => None
  | (k, v) :: rest =>
      if String.eqb k key then Some v else lookup_string key rest
  end.

Definition category_of_provider (provider_id : string) : option string :=
  lookup_string provider_id kProviderCategories.

Definition kPerfInfoDebuggerEnabledOpcode : Z := 58.

(** Modelled from the spec: the PerfInfo layouts, each an operation name
    and the cursor steps that build the fields. The spec gives
    PerfInfo/DebuggerEnabled (opcode 58, version 2) an empty layout; only
    that layout is modelled. *)
Definition DecodePerfInfoPayload (version opcode : Z) (is_64_bit : bool)
    : option (string * parser.Decoding event.Fields) :=
  if opcode =? kPerfInfoDebuggerEnabledOpcode then
    if version =? 2 then Some ("DebuggerEnabled", parser.ret [])
    else None
  else None.

(** Modelled from the spec: [DecodeRawETWKernelPayload]
    (parser/etw/etw_raw_kernel_payload_decoder.cc) is not among the
    sources. The spec derives the category from the provider, the operation
    from the provider and the opcode, and the fields from a layout chosen by
    version and bitness; a combination that is not in the table is dropped.
    Every layout that is not modelled is dropped here. *)
Definition DecodeRawETWKernelPayload (provider_id : string)
    (version opcode : Z) (is_64_bit : bool)
    (payload : option (list byte)) (payload_size : nat)
    : option (string * string * event.Value) :=
  match category_of_provider provider_id with
  | None => None
  | Some category =>
      if String.eqb category "PerfInfo" then
        match DecodePerfInfoPayload version opcode is_64_bit with
        | None => None
        | Some (operation, layout) =>
            match layout (parser.Decoder_new payload payload_size) with
            | (Some fields, _) =>
                Some (operation, category, event.StructValue fields)
            | (None, _) => None
            end
        end
      else None
  end.

End etw.

(** ** The spec's vocabulary: what the statements below compare the code
       with *)
Module spec.
Import base symbols.

(** A call to the image map's interface. *)
Inductive Call : Type :=
| load_image (pid base_address : Z) (image : Image)
| unload_image (pid base_address : Z).

Definition call (m : gmap Z Images) (c : Call) : gmap Z Images :=
  match c with
  | load_image pid base_address image => LoadImage m pid base_address image
  | unload_image pid base_address => UnloadImage m pid base_address
  end.

(** The image map after a sequence of calls on a fresh resolver. *)
Definition run (calls : list Call) : gmap Z Images :=
  fold_left call calls ∅.

(** The currently-live entry at [(pid, base_address)]: the image of the
    last load there, unless an unload there came after it. *)
Fixpoint live_from (calls : list Call) (pid base_address : Z)
    (current : option Image) : option Image :=
  match calls with
  | [] => current
  | load_image p b image :: rest =>
      live_from rest pid base_address
        (if (p =? pid) && (b =? base_address) then Some image
         else current)
  | unload_image p b :: rest =>
      live_from rest pid base_address
        (if (p =? pid) && (b =? base_address) then None else current)
  end.

Definition live (calls : list Call) (pid base_address : Z)
    : option Image :=
  live_from calls pid base_address None.

(** The entry that the image map holds at [(pid, base_address)]. *)
Definition entry (m : gmap Z Images) (pid base_address : Z)
    : option Image :=
  m !! pid ≫= map_find base_address.

(** The interval of an entry in the unbounded integers. *)
Definition contains (base_address : Z) (image : Image) (address : Z)
    : Prop :=
  base_address <= address < base_address + size image.

(** An entry whose end stays inside the 64-bit address space, so that the
    code's sum [first + size] is the integer sum. *)
Definition fits (base_address : Z) (image : Image) : Prop :=
  0 <= base_address /\ 0 <= size image /\
  base_address + size image <= uint64_max.

(** "The greatest-offset symbol S with S.offset <= offset", the later one
    among symbols of equal offset; [None] when there is none. The table is
    scanned once, keeping the best symbol so far. *)
Definition keep_greatest (offset : Z) (best : option Symbol) (s : Symbol)
    : option Symbol :=
  if offset_ s <=? offset then
    match best with
    | None => Some s
    | Some b => if offset_ b <=? offset_ s then Some s else best
    end
  else best.

Definition greatest_symbol_le (image_symbols : ImageSymbols) (offset : Z)
    : option Symbol :=
  fold_left (keep_greatest offset) image_symbols None.

(** A symbol table ordered by offset, ascending. *)
Definition sorted_by_offset (image_symbols : ImageSymbols) : Prop :=
  StronglySorted (fun s t => offset_ s <= offset_ t) image_symbols.

(** A symbol whose end is a 64-bit value, so that the code's sum
    [offset + size] is the integer sum. *)
Definition symbol_fits (s : Symbol) : Prop :=
  0 <= offset_ s /\ 0 <= size_ s /\ offset_ s + size_ s <= uint64_max.

(** The keys of a [std::map] come in strictly ascending order. *)
Definition sorted_keys (images : Images) : Prop :=
  StronglySorted (fun x y => fst x < fst y) images.

Definition well_formed (m : gmap Z Images) : Prop :=
  forall pid images, m !! pid = Some images -> sorted_keys images.

(** [base_address] is the greatest key of [images] that is not greater
    than [address], and [image] is the entry there. *)
Definition greatest_base_le (images : Images) (address base_address : Z)
    (image : Image) : Prop :=
  map_find base_address images = Some image /\
  base_address <= address /\
  forall b i, map_find b images = Some i -> b <= address ->
              b <= base_address.

(** Every cached symbol table is ordered by offset. *)
Definition cache_sorted (symbol_cache : gmap Image ImageSymbols) : Prop :=
  forall image table,
    symbol_cache !! image = Some table -> sorted_by_offset table.

(** The cursor moved forward by [n] bytes. *)
Definition advance (d : parser.Decoder) (n : nat) : parser.Decoder :=
  parser.mkDecoder (parser.buffer d) (parser.position d + n).

(** The layout of a SID as the spec gives it: a pointer-sized handle, a
    32-bit attribute word, 4 bytes of padding in the 64-bit layout, and a
    body of [4 * sub_authority_count + 8] bytes whose byte 1 is
    [sub_authority_count]. *)
Definition pointer_size (is_64_bit : bool) : nat :=
  if is_64_bit then 8%nat else 4%nat.

Definition pointer_kind (is_64_bit : bool) : parser.Kind :=
  if is_64_bit then parser.KULong else parser.KUInt.

Definition sid_padding (is_64_bit : bool) : nat :=
  if is_64_bit then 4%nat else 0%nat.

Definition sid_header_size (is_64_bit : bool) : nat :=
  (pointer_size is_64_bit + 4 + sid_padding is_64_bit)%nat.

Definition sub_authority_count (is_64_bit : bool) (bytes : list byte)
    : Z :=
  parser.byte_value
    (nth 1 (skipn (sid_header_size is_64_bit) bytes) "000"%byte).

Definition sid_body_size (is_64_bit : bool) (bytes : list byte) : nat :=
  Z.to_nat (4 * sub_authority_count is_64_bit bytes + 8).

Definition uchar_array (bytes : list byte) : event.Value :=
  event.ArrayValue
    (map (fun b => event.UCharValue (parser.byte_value b)) bytes).

Definition sid_struct (is_64_bit : bool) (bytes : list byte)
    : event.Value :=
  event.StructValue
    [("PSid",
      parser.make (pointer_kind is_64_bit)
        (parser.le_combine (firstn (pointer_size is_64_bit) bytes)));
     ("Attributes",
      event.UIntValue
        (parser.le_combine
           (firstn 4 (skipn (pointer_size is_64_bit) bytes))));
     ("Sid",
      uchar_array
        (firstn (sid_body_size is_64_bit bytes)
           (skipn (sid_header_size is_64_bit) bytes)))].

(** The raw timestamp of a record as the parser reads it, and the first
    nonzero one of a sequence (0 when there is none). *)
Definition raw_ts (pevent : etw.EVENT_RECORD) : Z :=
  wrap64 (etw.TimeStamp pevent).

Fixpoint first_nonzero (raw : list Z) : Z :=
  match raw with
  | [] => 0
  | t :: rest => if t =? 0 then first_nonzero rest else t
  end.

End spec.

(** ** Inputs of the unit tests and other concrete inputs *)
Module examples.
Import base symbols spec.

(** TEST(SymbolsResolver, FindImage). *)
Definition image_a : Image := mkImage 1000 12 34 [105; 109; 97].
Definition image_b : Image := mkImage 2000 56 78 [105; 109; 98].
Definition image_c : Image := mkImage 3000 91 23 [105; 109; 99].

Definition kPid : Z := 42.
Definition kOtherPid : Z := 13.

Definition test_calls : list Call :=
  [load_image kPid 10000 image_a; load_image kPid 20000 image_b;
   load_image kOtherPid 0 image_c].

(** An image in the last page of the 64-bit address space. *)
Definition top_base : Z := 0xFFFFFFFFFFFFF000.
Definition top_image : Image := mkImage 0x1000 0 0 [116; 111; 112].

(** Two loads in one process, the second inside the first. *)
Definition outer_image : Image := mkImage 100 0 0 [111].
Definition inner_image : Image := mkImage 5 0 0 [105].
Definition overlapping_calls : list Call :=
  [load_image 1 0 outer_image; load_image 1 10 inner_image].

(** A resolver holding the images of the unit test, with nothing cached,
    and a symbol enumeration that reports three symbols out of order. *)
Definition test_resolver : SymbolsResolver :=
  mkSymbolsResolver (run test_calls) ∅.

Definition test_symbols (image : Image) : list Symbol :=
  [mkSymbol [99] 300 50; mkSymbol [97] 0 16; mkSymbol [98] 16 4].

(** The event that [ProcessEvent] builds for the payload of
    TEST(EtwRawDecoderTest, ImageDCStart32bitsV2), with a shortened file
    name, and an Image/KernelBase event. *)
Definition image_header (operation : string) : event.Value :=
  event.StructValue
    [("operation", event.StringValue operation);
     ("category", event.StringValue "Image");
     ("process_id", event.ULongValue 7644);
     ("thread_id", event.ULongValue 0);
     ("processor_number", event.UCharValue 0)].

Definition image_dcstart_payload : event.Value :=
  event.StructValue
    [("BaseAddress", event.UIntValue 0x1160000);
     ("ModuleSize", event.UIntValue 0x19E000);
     ("ProcessId", event.UIntValue 7644);
     ("ImageCheckSum", event.UIntValue 1268934759);
     ("TimeDateStamp", event.UIntValue 3405691582);
     ("Reserved0", event.UIntValue 0);
     ("DefaultBase", event.UIntValue 0);
     ("ImageFileName", event.WStringValue [97; 46; 101; 120; 101])].

Definition image_dcstart_event : event.Event :=
  event.mkEvent 0 (image_header "DCStart") image_dcstart_payload.

Definition kernel_base_event : event.Event :=
  event.mkEvent 0 (image_header "KernelBase")
    (event.StructValue [("BaseAddress", event.ULongValue 0x1000)]).

Definition test_state : state.CurrentState :=
  state.mkCurrentState test_resolver.

(** [kProcessDCStartPayloadV3] of the decoder tests; its SID starts at
    byte 32. *)
Definition bytes_of (values : list Z) : list byte :=
  map (fun v => default "000"%byte (Byte.of_N (Z.to_N v))) values.

Definition kProcessDCStartPayloadV3 : list byte :=
  bytes_of
    [0x80; 0x81; 0x01; 0x03; 0x00; 0xF8; 0xFF; 0xFF;
     0x00; 0x00; 0x00; 0x00; 0x00; 0x00; 0x00; 0x00;
     0xFF; 0xFF; 0xFF; 0xFF; 0x00; 0x00; 0x00; 0x00;
     0x00; 0x70; 0x18; 0x00; 0x00; 0x00; 0x00; 0x00;
     0x40; 0x56; 0x62; 0x2A; 0xA0; 0xF8; 0xFF; 0xFF;
     0x00; 0x00; 0x00; 0x00; 0x03; 0x00; 0xFF; 0xFF;
     0x01; 0x01; 0x00; 0x00; 0x00; 0x00; 0x00; 0x05;
     0x10; 0x00; 0x00; 0x00; 0x49; 0x64; 0x6C; 0x65;
     0x00; 0x00; 0x00].

Definition sid_decoder : parser.Decoder :=
  parser.mkDecoder kProcessDCStartPayloadV3 32.

(** The value that the test builds with [MakeSID64]. *)
Definition expected_sid : event.Value :=
  event.StructValue
    [("PSid", event.ULongValue 18446735965522384448);
     ("Attributes", event.UIntValue 0);
     ("Sid",
      event.ArrayValue
        (map event.UCharValue [1; 1; 0; 0; 0; 0; 0; 5; 16; 0; 0; 0]))].

(** One reading of the C++ [double]: IEEE-754 binary64 with rounding to
    nearest even. The cast to [uint64_t] truncates; where C++ leaves it
    undefined (negative, too large, not a number) it gives 0 here. It
    serves to run the parser on the inputs below. *)
Definition binary64 : Type := SpecFloat.spec_float.

Definition binary64_of_Z (z : Z) : binary64 :=
  SpecFloat.binary_normalize 53 1024 z 0 false.

Definition binary64_to_uint64 (x : binary64) : Z :=
  match x with
  | SpecFloat.S754_finite false m e =>
      let v := if 0 <=? e then Z.pos m * 2 ^ e else Z.pos m / 2 ^ (- e) in
      if v <=? uint64_max then v else 0
  | _ => 0
  end.

Definition binary64_parser : etw.ETWParser binary64 :=
  etw.ETWParser_new (SpecFloat.S754_zero false).

Definition trace_path : wstring :=
  [116; 114; 97; 99; 101; 46; 101; 116; 108].

(** A parser at the start of [ProcessTrace]: one trace, start time
    130317334947711037, a performance counter at 2533369 ticks per
    second. *)
Definition started_parser : etw.ETWParser binary64 :=
  etw.mkETWParser [trace_path] 130317334947711037 0
    (SpecFloat.SFdiv 53 1024 (binary64_of_Z 10000000)
       (binary64_of_Z 2533369)).

Definition kPerfInfoGuid : etw.GUID :=
  etw.mkGUID 0xCE1DBFB4 0x137E 0x4DA6
    [0x87; 0xB0; 0x3F; 0x59; 0xAA; 0x10; 0x2C; 0xBC].

(** A PerfInfo/DebuggerEnabled record with the given raw timestamp. *)
Definition debugger_enabled_record (raw : Z) : etw.EVENT_RECORD :=
  etw.mkEVENT_RECORD kPerfInfoGuid 2 58 true raw 4 8 0 None 0.

Definition process_test_records (records : list etw.EVENT_RECORD)
    : etw.ETWParser binary64 * list event.Event :=
  etw.process_records binary64_of_Z (SpecFloat.SFmul 53 1024)
    binary64_to_uint64 etw.DecodeRawETWKernelPayload started_parser
    records.



(** A trace reader that opens every file with the header of
    [started_parser] and delivers three PerfInfo/DebuggerEnabled records,
    and [Parse] over it. *)
Definition test_open_trace (path : wstring) : option etw.LogfileHeader :=
  Some (etw.mkLogfileHeader 130317334947711037 2533369).

Definition test_process_trace (handles : list wstring)
    : list etw.EVENT_RECORD :=
  [debugger_enabled_record 0; debugger_enabled_record 5000;
   debugger_enabled_record 2538369].

Definition test_parse (p : etw.ETWParser binary64)
    : list event.Event * etw.ETWParser binary64 :=
  etw.Parse (SpecFloat.S754_zero false) (binary64_of_Z 10000000)
    binary64_of_Z binary64_of_Z (SpecFloat.SFdiv 53 1024)
    (SpecFloat.SFmul 53 1024) binary64_to_uint64
    etw.DecodeRawETWKernelPayload test_open_trace test_process_trace p.

End examples.

(** ** Facts about the resolver *)
Module symbols_facts.
Import base symbols spec.

Section UpperBound.
Context {A : Type} (key : A -> Z).

Local Abbreviation comp := (fun (v : Z) (e : A) => v <? key e).

Lemma upper_bound_le_length (v : Z) (l : list A) :
  (upper_bound comp v l <= length l)%nat.
Proof.
  induction l as [|e l IH]; simpl; [lia|].
  destruct (v <? key e); simpl; lia.
Qed.

(** Every element in front of the upper bound has a key that is not
    greater than the value. *)
Lemma upper_bound_before (v : Z) (l : list A) (i : nat) (e : A) :
  (i < upper_bound comp v l)%nat -> l !! i = Some e -> key e <= v.
Proof.
  revert i; induction l as [|x l IH]; intros i Hi Hl; simpl in *.
  - lia.
  - destruct (v <? key x) eqn:Hc; [lia|].
    destruct i as [|i]; simpl in Hl.
    + inversion Hl; subst. lia.
    + apply (IH i); [lia|exact Hl].
Qed.

(** In an ordered sequence every element from the upper bound on has a
    greater key. *)
Lemma upper_bound_after (v : Z) (l : list A) (i : nat) (e : A) :
  StronglySorted (fun x y => key x <= key y) l ->
  (upper_bound comp v l <= i)%nat -> l !! i = Some e -> v < key e.
Proof.
  intros Hs; revert i; induction Hs as [|x l Hs IH Hx]; intros i Hi Hl.
  - destruct i; discriminate.
  - simpl in Hi. destruct (v <? key x) eqn:Hc.
    + apply Z.ltb_lt in Hc.
      destruct i as [|i]; simpl in Hl.
      * inversion Hl; subst; exact Hc.
      * rewrite Forall_forall in Hx.
        assert (key x <= key e); [|lia].
        apply Hx. eapply list_elem_of_lookup_2; eauto.
    + destruct i as [|i]; [lia|]. simpl in Hl.
      apply (IH i); [lia|exact Hl].
Qed.

End UpperBound.

(** *** The ordered map *)

Lemma map_find_elem (images : Images) (k : Z) (v : Image) :
  map_find k images = Some v -> (k, v) ∈ images.
Proof.
  induction images as [|[k' v'] rest IH]; simpl; [discriminate|].
  destruct (k =? k') eqn:E.
  - apply Z.eqb_eq in E; subst. intros [= ->]. left.
  - intros H. right. apply IH, H.
Qed.

Lemma sorted_keys_cons (k : Z) (v : Image) (rest : Images) :
  sorted_keys ((k, v) :: rest) ->
  sorted_keys rest /\ (forall k' v', (k', v') ∈ rest -> k < k').
Proof.
  intros H. inversion H as [|? ? Hs Hf]; subst. split; [exact Hs|].
  intros k' v' Hin. rewrite Forall_forall in Hf. apply (Hf _ Hin).
Qed.

Lemma elem_map_find (images : Images) (k : Z) (v : Image) :
  sorted_keys images -> (k, v) ∈ images -> map_find k images = Some v.
Proof.
  induction images as [|[k' v'] rest IH]; intros Hs Hin.
  - inversion Hin.
  - apply sorted_keys_cons in Hs as [Hs Hlt]. simpl.
    apply elem_of_cons in Hin as [Heq|Hin].
    + inversion Heq; subst. rewrite Z.eqb_refl. reflexivity.
    + specialize (Hlt _ _ Hin).
      destruct (k =? k') eqn:E; [apply Z.eqb_eq in E; lia|].
      apply IH; assumption.
Qed.

Lemma map_assign_elem (key : Z) (image : Image) (images : Images)
    (x : Z * Image) :
  x ∈ map_assign key image images -> x = (key, image) \/ x ∈ images.
Proof.
  induction images as [|[k v] rest IH]; simpl.
  - intros H. apply list_elem_of_singleton in H. left; exact H.
  - destruct (key <? k).
    + intros H. apply elem_of_cons in H as [H|H]; [left|right]; assumption.
    + destruct (key =? k).
      * intros H. apply elem_of_cons in H as [H|H]; [left; exact H|].
        right. right. exact H.
      * intros H. apply elem_of_cons in H as [H|H].
        -- right. subst. left.
        -- destruct (IH H) as [H'|H']; [left; exact H'|].
           right. right. exact H'.
Qed.

Lemma map_erase_elem (key : Z) (images : Images) (x : Z * Image) :
  x ∈ map_erase key images -> x ∈ images.
Proof.
  induction images as [|[k v] rest IH]; simpl; [tauto|].
  destruct (key =? k).
  - intros H. right. exact H.
  - intros H. apply elem_of_cons in H as [H|H]; [subst; left|].
    right. apply IH, H.
Qed.

Lemma map_assign_sorted (key : Z) (image : Image) (images : Images) :
  sorted_keys images -> sorted_keys (map_assign key image images).
Proof.
  induction images as [|[k v] rest IH]; intros Hs; simpl.
  - constructor; constructor.
  - pose proof (sorted_keys_cons _ _ _ Hs) as [Hrest Hlt].
    destruct (key <? k) eqn:Elt; [|destruct (key =? k) eqn:Eeq].
    + apply Z.ltb_lt in Elt. constructor; [exact Hs|].
      apply Forall_forall. intros [k' v'] Hin; simpl.
      apply elem_of_cons in Hin as [Heq|Hin].
      * inversion Heq; subst; exact Elt.
      * specialize (Hlt _ _ Hin). lia.
    + apply Z.eqb_eq in Eeq; subst. constructor; [exact Hrest|].
      apply Forall_forall. intros [k' v'] Hin; simpl.
      apply (Hlt _ _ Hin).
    + apply Z.ltb_ge in Elt. apply Z.eqb_neq in Eeq.
      constructor; [apply IH, Hrest|].
      apply Forall_forall. intros [k' v'] Hin; simpl.
      apply map_assign_elem in Hin as [Heq|Hin].
      * inversion Heq; subst. lia.
      * apply (Hlt _ _ Hin).
Qed.

Lemma map_erase_sorted (key : Z) (images : Images) :
  sorted_keys images -> sorted_keys (map_erase key images).
Proof.
  induction images as [|[k v] rest IH]; intros Hs; simpl; [exact Hs|].
  pose proof (sorted_keys_cons _ _ _ Hs) as [Hrest Hlt].
  destruct (key =? k); [exact Hrest|].
  constructor; [apply IH, Hrest|].
  apply Forall_forall. intros [k' v'] Hin; simpl.
  apply map_erase_elem in Hin. apply (Hlt _ _ Hin).
Qed.

Lemma map_find_assign (key : Z) (image : Image) (images : Images)
    (k : Z) :
  map_find k (map_assign key image images) =
  if k =? key then Some image else map_find k images.
Proof.
  induction images as [|[k' v'] rest IH]; simpl.
  - destruct (k =? key); reflexivity.
  - destruct (key <? k') eqn:Elt; [|destruct (key =? k') eqn:Eeq]; simpl.
    + destruct (k =? key); reflexivity.
    + apply Z.eqb_eq in Eeq; subst.
      destruct (k =? k'); reflexivity.
    + rewrite IH. apply Z.eqb_neq in Eeq.
      destruct (k =? k') eqn:E1; [|reflexivity].
      apply Z.eqb_eq in E1; subst.
      destruct (k' =? key) eqn:E2; [apply Z.eqb_eq in E2; lia|reflexivity].
Qed.

Lemma map_find_erase (key : Z) (images : Images) (k : Z) :
  sorted_keys images ->
  map_find k (map_erase key images) =
  if k =? key then None else map_find k images.
Proof.
  induction images as [|[k' v'] rest IH]; intros Hs; simpl.
  - destruct (k =? key); reflexivity.
  - pose proof (sorted_keys_cons _ _ _ Hs) as [Hrest Hlt].
    destruct (key =? k') eqn:Eeq; simpl.
    + apply Z.eqb_eq in Eeq; subst.
      destruct (k =? k') eqn:E; [|reflexivity].
      apply Z.eqb_eq in E; subst.
      destruct (map_find k' rest) eqn:F; [|reflexivity].
      apply map_find_elem in F. specialize (Hlt _ _ F). lia.
    + rewrite (IH Hrest). apply Z.eqb_neq in Eeq.
      destruct (k =? k') eqn:E1; [|reflexivity].
      apply Z.eqb_eq in E1; subst.
      destruct (k' =? key) eqn:E2; [apply Z.eqb_eq in E2; lia|reflexivity].
Qed.

(** *** The search of [FindImage] *)

Lemma StronglySorted_weaken {A : Type} (R S : A -> A -> Prop)
    (l : list A) :
  (forall x y, R x y -> S x y) -> StronglySorted R l -> StronglySorted S l.
Proof.
  intros HRS Hs. induction Hs as [|x l Hs IH Hx]; constructor; [exact IH|].
  eapply Forall_impl; [exact Hx|]. intros y Hy; apply HRS, Hy.
Qed.

Lemma StronglySorted_lookup {A : Type} (R : A -> A -> Prop) (l : list A)
    (i j : nat) (x y : A) :
  StronglySorted R l -> (i < j)%nat ->
  l !! i = Some x -> l !! j = Some y -> R x y.
Proof.
  intros Hs; revert i j. induction Hs as [|a l Hs IH Ha]; intros i j Hij Hi Hj.
  - destruct i; discriminate.
  - destruct j as [|j]; [lia|]. simpl in Hj.
    destruct i as [|i]; simpl in Hi.
    + inversion Hi; subst. rewrite Forall_forall in Ha.
      apply Ha. eapply list_elem_of_lookup_2; eauto.
    + apply (IH i j); [lia|assumption|assumption].
Qed.

Lemma map_upper_bound_first (images : Images) (a : Z) :
  sorted_keys images -> map_upper_bound a images = O ->
  forall b i, map_find b images = Some i -> a < b.
Proof.
  intros Hs Hub b i Hf.
  apply map_find_elem in Hf. apply list_elem_of_lookup_1 in Hf as [j Hj].
  apply (upper_bound_after fst a images j (b, i)); [|unfold map_upper_bound in Hub; lia|exact Hj].
  eapply StronglySorted_weaken; [|exact Hs]. simpl; intros; lia.
Qed.

Lemma map_upper_bound_pred (images : Images) (a : Z) (n : nat) :
  sorted_keys images -> map_upper_bound a images = S n ->
  exists b i, images !! n = Some (b, i) /\ greatest_base_le images a b i.
Proof.
  intros Hs Hub.
  assert (Hw : StronglySorted (fun x y : Z * Image => fst x <= fst y) images).
  { eapply StronglySorted_weaken; [|exact Hs]. simpl; intros; lia. }
  pose proof (upper_bound_le_length fst a images) as Hlen.
  unfold map_upper_bound in Hub. rewrite Hub in Hlen.
  destruct (images !! n) as [[b i]|] eqn:Hn.
  2:{ apply lookup_ge_None in Hn. lia. }
  exists b, i. split; [reflexivity|].
  split; [|split].
  - apply elem_map_find; [exact Hs|]. eapply list_elem_of_lookup_2; eauto.
  - apply (upper_bound_before fst a images n (b, i)); [lia|exact Hn].
  - intros b' i' Hf Hle.
    apply map_find_elem in Hf. apply list_elem_of_lookup_1 in Hf as [j Hj].
    destruct (Nat.le_gt_cases (S n) j) as [Hge|Hlt].
    + pose proof (upper_bound_after fst a images j (b', i') Hw) as Hafter.
      simpl in Hafter. rewrite Hub in Hafter. specialize (Hafter Hge Hj). lia.
    + destruct (Nat.eq_dec j n) as [Heq|Hne].
      * subst j. pose proof (eq_trans (eq_sym Hj) Hn) as Hbi.
        inversion Hbi; subst. lia.
      * pose proof (StronglySorted_lookup _ images j n (b', i') (b, i) Hs) as H.
        simpl in H. assert (b' < b); [apply H; [lia|exact Hj|exact Hn]|lia].
Qed.

Lemma greatest_base_le_unique (images : Images) (a b b' : Z)
    (i i' : Image) :
  greatest_base_le images a b i -> greatest_base_le images a b' i' ->
  b = b' /\ i = i'.
Proof.
  intros (Hf & Hle & Hmax) (Hf' & Hle' & Hmax').
  assert (b = b') as <-.
  { pose proof (Hmax _ _ Hf' Hle'). pose proof (Hmax' _ _ Hf Hle). lia. }
  split; [reflexivity|congruence].
Qed.

(** What [FindImage] returns, for a map whose buckets are ordered: the
    entry at the greatest base not above the address, when the address is
    below the 64-bit sum of that base and the size. *)
Lemma FindImage_Some (m : gmap Z Images) (pid a b : Z) (i : Image) :
  well_formed m ->
  FindImage m pid a = Some (b, i) <->
  exists images,
    m !! pid = Some images /\ greatest_base_le images a b i /\
    a < add64 b (size i).
Proof.
  intros Hwf. unfold FindImage.
  destruct (m !! pid) as [images|] eqn:Hm.
  2:{ split; [discriminate|]. intros (? & ? & _); discriminate. }
  specialize (Hwf _ _ Hm).
  destruct (length images =? 0)%nat eqn:Hlen.
  { apply Nat.eqb_eq in Hlen. destruct images; [|discriminate].
    split; [discriminate|]. intros (? & [= <-] & (Hf & _) & _).
    discriminate. }
  destruct (map_upper_bound a images) as [|n] eqn:Hub; simpl.
  { split; [discriminate|]. intros (? & [= <-] & (Hf & Hle & _) & _).
    pose proof (map_upper_bound_first _ _ Hwf Hub _ _ Hf). lia. }
  rewrite Nat.sub_0_r.
  destruct (map_upper_bound_pred _ _ _ Hwf Hub) as (b0 & i0 & Hn & Hg).
  assert (Hlt : (n < length images)%nat) by (eapply lookup_lt_Some; eauto).
  destruct (n =? length images)%nat eqn:E; [apply Nat.eqb_eq in E; lia|].
  rewrite Hn.
  destruct (a >=? add64 b0 (size i0)) eqn:Hcmp.
  - split; [discriminate|]. intros (? & [= <-] & Hg' & Ha).
    destruct (greatest_base_le_unique _ _ _ _ _ _ Hg Hg') as [-> ->]. lia.
  - split.
    + intros [= <- <-]. exists images. split; [reflexivity|]. split; [exact Hg|lia].
    + intros (? & [= <-] & Hg' & Ha).
      destruct (greatest_base_le_unique _ _ _ _ _ _ Hg Hg') as [-> ->].
      reflexivity.
Qed.

(** *** Loads and unloads *)

Lemma well_formed_empty : well_formed ∅.
Proof. intros pid images H. rewrite lookup_empty in H. discriminate. Qed.

Lemma well_formed_LoadImage (m : gmap Z Images) (p b : Z) (image : Image) :
  well_formed m -> well_formed (LoadImage m p b image).
Proof.
  intros Hwf pid images. unfold LoadImage.
  destruct (decide (p = pid)) as [->|Hne].
  - rewrite lookup_insert_eq. intros [= <-].
    apply map_assign_sorted.
    destruct (m !! pid) as [old|] eqn:Hm; simpl.
    + apply (Hwf _ _ Hm).
    + constructor.
  - rewrite lookup_insert_ne by exact Hne. apply Hwf.
Qed.

Lemma well_formed_UnloadImage (m : gmap Z Images) (p b : Z) :
  well_formed m -> well_formed (UnloadImage m p b).
Proof.
  intros Hwf pid images. unfold UnloadImage.
  destruct (m !! p) as [old|] eqn:Hm; [|apply Hwf].
  destruct (decide (p = pid)) as [->|Hne].
  - rewrite lookup_insert_eq. intros [= <-].
    apply map_erase_sorted, (Hwf _ _ Hm).
  - rewrite lookup_insert_ne by exact Hne. apply Hwf.
Qed.

Lemma entry_LoadImage (m : gmap Z Images) (p b : Z) (image : Image)
    (pid base_address : Z) :
  entry (LoadImage m p b image) pid base_address =
  if (p =? pid) && (b =? base_address) then Some image
  else entry m pid base_address.
Proof.
  unfold entry, LoadImage.
  destruct (p =? pid) eqn:Ep; simpl.
  - apply Z.eqb_eq in Ep; subst. rewrite lookup_insert_eq. simpl.
    rewrite map_find_assign. rewrite (Z.eqb_sym base_address b).
    destruct (b =? base_address); [reflexivity|].
    destruct (m !! pid); reflexivity.
  - apply Z.eqb_neq in Ep. rewrite lookup_insert_ne by exact Ep.
    reflexivity.
Qed.

Lemma entry_UnloadImage (m : gmap Z Images) (p b : Z)
    (pid base_address : Z) :
  well_formed m ->
  entry (UnloadImage m p b) pid base_address =
  if (p =? pid) && (b =? base_address) then None
  else entry m pid base_address.
Proof.
  intros Hwf. unfold entry, UnloadImage.
  destruct (p =? pid) eqn:Ep; simpl.
  - apply Z.eqb_eq in Ep; subst.
    destruct (m !! pid) as [old|] eqn:Hm.
    + rewrite lookup_insert_eq. simpl.
      rewrite (map_find_erase _ _ _ (Hwf _ _ Hm)).
      rewrite (Z.eqb_sym base_address b). reflexivity.
    + rewrite Hm. simpl. destruct (b =? base_address); reflexivity.
  - apply Z.eqb_neq in Ep.
    destruct (m !! p) as [old|] eqn:Hm; [|reflexivity].
    rewrite lookup_insert_ne by exact Ep. reflexivity.
Qed.

Lemma well_formed_call (m : gmap Z Images) (c : Call) :
  well_formed m -> well_formed (call m c).
Proof.
  destruct c; simpl;
    [apply well_formed_LoadImage | apply well_formed_UnloadImage].
Qed.

Lemma well_formed_calls (calls : list Call) (m : gmap Z Images) :
  well_formed m -> well_formed (fold_left call calls m).
Proof.
  revert m; induction calls as [|c calls IH]; intros m Hwf; simpl.
  - exact Hwf.
  - apply IH, well_formed_call, Hwf.
Qed.

Lemma well_formed_run (calls : list Call) : well_formed (run calls).
Proof. apply well_formed_calls, well_formed_empty. Qed.

(** The map keeps exactly the live entries. *)
Lemma entry_calls (calls : list Call) (m : gmap Z Images)
    (pid base_address : Z) :
  well_formed m ->
  entry (fold_left call calls m) pid base_address =
  live_from calls pid base_address (entry m pid base_address).
Proof.
  revert m; induction calls as [|c calls IH]; intros m Hwf; simpl.
  - reflexivity.
  - rewrite (IH _ (well_formed_call _ c Hwf)).
    destruct c as [p b image|p b]; simpl.
    + rewrite entry_LoadImage. reflexivity.
    + rewrite (entry_UnloadImage _ _ _ _ _ Hwf). reflexivity.
Qed.

Lemma entry_run (calls : list Call) (pid base_address : Z) :
  entry (run calls) pid base_address = live calls pid base_address.
Proof.
  unfold run, live. rewrite (entry_calls _ _ _ _ well_formed_empty).
  reflexivity.
Qed.

Lemma entry_Some (m : gmap Z Images) (pid b : Z) (i : Image) :
  entry m pid b = Some i <->
  exists images, m !! pid = Some images /\ map_find b images = Some i.
Proof.
  unfold entry. destruct (m !! pid) as [images|]; simpl.
  - split; [intros H; exists images; auto|].
    intros (? & [= <-] & H); exact H.
  - split; [discriminate|]. intros (? & ? & _); discriminate.
Qed.

Lemma add64_fits (b : Z) (i : Image) :
  fits b i -> add64 b (size i) = b + size i.
Proof.
  unfold fits, add64, wrap64, uint64_max. intros (? & ? & ?).
  apply Z.mod_small. lia.
Qed.

(** *** What [FindImage] finds *)

Lemma FindImage_None (m : gmap Z Images) (pid a : Z) :
  well_formed m ->
  FindImage m pid a = None <->
  forall b i, entry m pid b = Some i ->
    (forall b' i', entry m pid b' = Some i' -> b' <= a -> b' <= b) ->
    b <= a -> add64 b (size i) <= a.
Proof.
  intros Hwf. split.
  - intros Hnone b i He Hmax Hle.
    destruct (Z.le_gt_cases (add64 b (size i)) a) as [H|H]; [exact H|].
    assert (FindImage m pid a = Some (b, i)); [|congruence].
    apply (FindImage_Some _ _ _ _ _ Hwf).
    apply entry_Some in He as (images & Hm & Hf).
    exists images. split; [exact Hm|]. split; [|lia].
    split; [exact Hf|]. split; [exact Hle|].
    intros b' i' Hf' Hle'. apply (Hmax b' i'); [|exact Hle'].
    apply entry_Some. exists images. auto.
  - intros H. destruct (FindImage m pid a) as [[b i]|] eqn:Hfind; [|reflexivity].
    apply (FindImage_Some _ _ _ _ _ Hwf) in Hfind
      as (images & Hm & (Hf & Hle & Hmax) & Hlt).
    assert (add64 b (size i) <= a); [|lia].
    apply H; [apply entry_Some; exists images; auto| |exact Hle].
    intros b' i' He' Hle'.
    apply entry_Some in He' as (images' & Hm' & Hf').
    rewrite Hm in Hm'. inversion Hm'; subst. apply (Hmax _ _ Hf' Hle').
Qed.

(** The three boundary addresses of an entry whose end stays inside the
    address space. *)
Lemma FindImage_boundaries (m : gmap Z Images) (pid b : Z) (i : Image) :
  well_formed m -> entry m pid b = Some i -> fits b i ->
  (1 <= size i -> FindImage m pid b = Some (b, i)) /\
  (1 <= size i ->
   (forall b' i', entry m pid b' = Some i' ->
                  b' <= b + size i - 1 -> b' <= b) ->
   FindImage m pid (b + size i - 1) = Some (b, i)) /\
  ((forall b' i', entry m pid b' = Some i' ->
                  b' <= b + size i -> b' <= b) ->
   FindImage m pid (b + size i) = None).
Proof.
  intros Hwf He Hfits. pose proof (add64_fits _ _ Hfits) as Hadd.
  pose proof He as He0.
  apply entry_Some in He as (images & Hm & Hf).
  assert (Hent : forall b' i', map_find b' images = Some i' ->
                               entry m pid b' = Some i').
  { intros b' i' Hf'. apply entry_Some. exists images; auto. }
  split; [|split].
  - intros Hsize. apply (FindImage_Some _ _ _ _ _ Hwf).
    exists images. split; [exact Hm|]. split; [|lia].
    split; [exact Hf|]. split; [lia|]. intros; assumption.
  - intros Hsize Hmax. apply (FindImage_Some _ _ _ _ _ Hwf).
    exists images. split; [exact Hm|]. split; [|lia].
    split; [exact Hf|]. split; [lia|].
    intros b' i' Hf' Hle. apply (Hmax b' i'); [apply Hent, Hf'|exact Hle].
  - intros Hmax. destruct Hfits as (Hb & Hs & _).
    destruct (FindImage m pid (b + size i)) as [[b0 i0]|] eqn:Hfind;
      [|reflexivity].
    apply (FindImage_Some _ _ _ _ _ Hwf) in Hfind
      as (images' & Hm' & Hg' & Hlt).
    rewrite Hm in Hm'. inversion Hm'; subst images'.
    assert (Hg : greatest_base_le images (b + size i) b i).
    { split; [exact Hf|]. split; [lia|].
      intros b' i' Hf' Hle. apply (Hmax b' i'); [apply Hent, Hf'|exact Hle]. }
    destruct (greatest_base_le_unique _ _ _ _ _ _ Hg Hg') as [<- <-]. lia.
Qed.

(** TEST(SymbolsResolver, FindImage): the model gives what the test
    expects. *)
Example FindImage_unit_test :
  let loaded := run examples.test_calls in
  let unloaded_b := UnloadImage loaded examples.kPid 20000 in
  let unloaded_a := UnloadImage unloaded_b examples.kPid 10000 in
  FindImage ∅ examples.kPid 70 = None /\
  FindImage loaded examples.kPid 5000 = None /\
  FindImage loaded examples.kPid 10000 = Some (10000, examples.image_a) /\
  FindImage loaded examples.kPid 10500 = Some (10000, examples.image_a) /\
  FindImage loaded examples.kPid 11000 = None /\
  FindImage loaded examples.kPid 20000 = Some (20000, examples.image_b) /\
  FindImage loaded examples.kPid 21000 = Some (20000, examples.image_b) /\
  FindImage loaded examples.kPid 30000 = None /\
  FindImage loaded examples.kOtherPid 0 = Some (0, examples.image_c) /\
  FindImage unloaded_b examples.kPid 10000 = Some (10000, examples.image_a) /\
  FindImage unloaded_b examples.kPid 20000 = None /\
  FindImage unloaded_a examples.kPid 10000 = None.
Proof. vm_compute. repeat split. Qed.

(** C3 (amended). After any sequence of [load_image] / [unload_image]
    calls on a fresh resolver, if every live entry of [pid] ends inside the
    64-bit address space, [FindImage] returns the entry at base [b]
    exactly when that entry is live, [b <= a < b + size], and [b] is the
    greatest live base of [pid] that is not above [a]. *)
Theorem FindImage_after_calls (calls : list Call) (pid a : Z) :
  (forall b i, live calls pid b = Some i -> fits b i) ->
  forall b i,
    FindImage (run calls) pid a = Some (b, i) <->
    live calls pid b = Some i /\ contains b i a /\
    (forall b' i', live calls pid b' = Some i' -> b' <= a -> b' <= b).
Proof.
  intros Hfits b i. rewrite (FindImage_Some _ _ _ _ _ (well_formed_run calls)).
  split.
  - intros (images & Hm & (Hf & Hle & Hmax) & Hlt).
    assert (Hlive : live calls pid b = Some i).
    { rewrite <- entry_run. apply entry_Some. exists images; auto. }
    rewrite (add64_fits _ _ (Hfits _ _ Hlive)) in Hlt.
    split; [exact Hlive|]. split; [split; assumption|].
    intros b' i' Hlive' Hle'. rewrite <- entry_run in Hlive'.
    apply entry_Some in Hlive' as (images' & Hm' & Hf').
    rewrite Hm in Hm'. inversion Hm'; subst. apply (Hmax _ _ Hf' Hle').
  - intros (Hlive & [Hle Hlt] & Hmax).
    pose proof Hlive as He. rewrite <- entry_run in He.
    apply entry_Some in He as (images & Hm & Hf).
    exists images. split; [exact Hm|].
    rewrite (add64_fits _ _ (Hfits _ _ Hlive)). split; [|exact Hlt].
    split; [exact Hf|]. split; [exact Hle|].
    intros b' i' Hf' Hle'. apply (Hmax b' i'); [|exact Hle'].
    rewrite <- entry_run. apply entry_Some. exists images; auto.
Qed.

Lemma FindImage_after_calls_witness :
  FindImage (run examples.test_calls) examples.kPid 10500
    = Some (10000, examples.image_a) <->
  live examples.test_calls examples.kPid 10000 = Some examples.image_a /\
  contains 10000 examples.image_a 10500 /\
  (forall b' i', live examples.test_calls examples.kPid b' = Some i' ->
                 b' <= 10500 -> b' <= 10000).
Proof.
  apply (FindImage_after_calls examples.test_calls examples.kPid 10500).
  intros b i. unfold live, examples.test_calls, examples.kPid,
    examples.kOtherPid. simpl.
  destruct b as [|q|q]; try discriminate.
  destruct (20000 =? q)%positive eqn:E2.
  - apply Pos.eqb_eq in E2; subst q. intros [= <-].
    unfold fits, uint64_max. simpl. lia.
  - destruct (10000 =? q)%positive eqn:E1; [|discriminate].
    apply Pos.eqb_eq in E1; subst q. intros [= <-].
    unfold fits, uint64_max. simpl. lia.
Defined.

(** C3 as stated fails: after the two overlapping loads, address 50 lies
    in the live entry at base 0, yet [FindImage] looks only at the entry
    at base 10 and returns nothing. *)
Lemma FindImage_overlap_not_found :
  ~ (is_Some (FindImage (run examples.overlapping_calls) 1 50) <->
     exists b i, live examples.overlapping_calls 1 b = Some i /\
                 contains b i 50).
Proof.
  intros [_ H].
  assert (Hsome : is_Some (FindImage (run examples.overlapping_calls) 1 50)).
  { apply H. exists 0, examples.outer_image. split; [reflexivity|].
    unfold contains; simpl; lia. }
  destruct Hsome as [x Hx]. vm_compute in Hx. discriminate.
Qed.

(** C1 at the top of the address space: the image loaded at
    [0xFFFFFFFFFFFFF000] with size [0x1000] is the entry with the greatest
    base not above that address, and the address is below base + size, but
    the 64-bit sum wraps to 0 and [FindImage] returns nothing. *)
Theorem FindImage_wraps_at_top_of_address_space :
  let m := LoadImage ∅ 1 examples.top_base examples.top_image in
  m !! 1 = Some [(examples.top_base, examples.top_image)] /\
  is_uint64 examples.top_base /\
  is_uint64 (size examples.top_image) /\
  contains examples.top_base examples.top_image examples.top_base /\
  add64 examples.top_base (size examples.top_image) = 0 /\
  FindImage m 1 examples.top_base = None.
Proof.
  simpl. repeat split; try (vm_compute; congruence).
Qed.

(** *** The symbol table and its search *)

Lemma sort_insert_elem (s x : Symbol) (sorted : ImageSymbols) :
  x ∈ sort_insert s sorted -> x = s \/ x ∈ sorted.
Proof.
  induction sorted as [|t rest IH]; simpl.
  - intros H. apply list_elem_of_singleton in H. left; exact H.
  - destruct (offset_ s <? offset_ t).
    + intros H. apply elem_of_cons in H as [H|H]; [left|right]; assumption.
    + intros H. apply elem_of_cons in H as [H|H]; [right; subst; left|].
      destruct (IH H) as [H'|H']; [left; exact H'|right; right; exact H'].
Qed.

Lemma sort_insert_sorted (s : Symbol) (sorted : ImageSymbols) :
  sorted_by_offset sorted -> sorted_by_offset (sort_insert s sorted).
Proof.
  induction sorted as [|t rest IH]; intros Hs; simpl.
  - constructor; constructor.
  - inversion Hs as [|? ? Hrest Hall]; subst.
    destruct (offset_ s <? offset_ t) eqn:E.
    + apply Z.ltb_lt in E. constructor; [exact Hs|].
      constructor; [lia|].
      eapply Forall_impl; [exact Hall|]. simpl; intros; lia.
    + apply Z.ltb_ge in E. constructor; [apply IH, Hrest|].
      apply Forall_forall. intros x Hx.
      apply sort_insert_elem in Hx as [->|Hx]; [exact E|].
      rewrite Forall_forall in Hall. apply Hall, Hx.
Qed.

Lemma sort_symbols_sorted (image_symbols : ImageSymbols) :
  sorted_by_offset (sort_symbols image_symbols).
Proof.
  unfold sort_symbols.
  assert (H : forall acc, sorted_by_offset acc ->
    sorted_by_offset
      (fold_left (fun sorted s => sort_insert s sorted) image_symbols acc)).
  { induction image_symbols as [|s l IH]; intros acc Hacc; simpl.
    - exact Hacc.
    - apply IH, sort_insert_sorted, Hacc. }
  apply H. constructor.
Qed.

Lemma keep_greatest_above (offset : Z) (l : ImageSymbols)
    (best : option Symbol) :
  Forall (fun s => offset < offset_ s) l ->
  fold_left (keep_greatest offset) l best = best.
Proof.
  revert best; induction l as [|s l IH]; intros best Hall; simpl.
  - reflexivity.
  - inversion Hall as [|? ? Hs Hl]; subst. rewrite (IH _ Hl).
    unfold keep_greatest.
    destruct (offset_ s <=? offset) eqn:E; [apply Z.leb_le in E; lia|].
    reflexivity.
Qed.

(** In an ordered table the greatest symbol at or below an offset sits
    just in front of the upper bound. *)
Lemma keep_greatest_upper_bound (offset : Z) (l : ImageSymbols)
    (best : option Symbol) :
  sorted_by_offset l ->
  (forall b, best = Some b -> Forall (fun s => offset_ b <= offset_ s) l) ->
  fold_left (keep_greatest offset) l best =
  match upper_bound SymbolOffsetComparison offset l with
  | O => best
  | S n => l !! n
  end.
Proof.
  intros Hs; revert best.
  induction Hs as [|s l Hs IH Hall]; intros best Hbest.
  - reflexivity.
  - simpl. unfold SymbolOffsetComparison at 1.
    destruct (offset <? offset_ s) eqn:E.
    + apply Z.ltb_lt in E.
      assert (Hk : keep_greatest offset best s = best).
      { unfold keep_greatest.
        destruct (offset_ s <=? offset) eqn:E'; [apply Z.leb_le in E'; lia|].
        reflexivity. }
      rewrite Hk. apply keep_greatest_above.
      eapply Forall_impl; [exact Hall|]. simpl; intros; lia.
    + apply Z.ltb_ge in E.
      assert (Hk : keep_greatest offset best s = Some s).
      { unfold keep_greatest.
        destruct (offset_ s <=? offset) eqn:E'; [|apply Z.leb_gt in E'; lia].
        destruct best as [b|]; [|reflexivity].
        specialize (Hbest b eq_refl). inversion Hbest; subst.
        destruct (offset_ b <=? offset_ s) eqn:E''; [reflexivity|].
        apply Z.leb_gt in E''. lia. }
      rewrite Hk. rewrite IH.
      * destruct (upper_bound SymbolOffsetComparison offset l); reflexivity.
      * intros b [= <-]. exact Hall.
Qed.

Lemma greatest_symbol_le_upper_bound (offset : Z) (l : ImageSymbols) :
  sorted_by_offset l ->
  greatest_symbol_le l offset =
  match upper_bound SymbolOffsetComparison offset l with
  | O => None
  | S n => l !! n
  end.
Proof.
  intros Hs. unfold greatest_symbol_le.
  apply keep_greatest_upper_bound; [exact Hs|discriminate].
Qed.

(** The search of [ResolveSymbol] in an ordered table: the greatest symbol
    at or below the offset, kept when the offset is not above the 64-bit
    sum of its offset and size. *)
Lemma resolve_in_table_greatest (offset : Z) (l : ImageSymbols) :
  sorted_by_offset l ->
  resolve_in_table l offset =
  match greatest_symbol_le l offset with
  | None => None
  | Some s =>
      if offset >? add64 (offset_ s) (size_ s) then None else Some s
  end.
Proof.
  intros Hs. rewrite (greatest_symbol_le_upper_bound _ _ Hs).
  unfold resolve_in_table.
  pose proof (upper_bound_le_length offset_ offset l) as Hlen.
  change (fun v e => v <? offset_ e) with SymbolOffsetComparison in Hlen.
  destruct (upper_bound SymbolOffsetComparison offset l) as [|n]; simpl.
  - reflexivity.
  - rewrite Nat.sub_0_r.
    destruct (n =? length l)%nat eqn:E; [apply Nat.eqb_eq in E; lia|].
    destruct (l !! n); reflexivity.
Qed.

Lemma greatest_symbol_le_Some (offset : Z) (l : ImageSymbols) (s : Symbol) :
  sorted_by_offset l -> greatest_symbol_le l offset = Some s ->
  s ∈ l /\ offset_ s <= offset /\
  forall t, t ∈ l -> offset_ t <= offset -> offset_ t <= offset_ s.
Proof.
  intros Hs. rewrite (greatest_symbol_le_upper_bound _ _ Hs).
  destruct (upper_bound SymbolOffsetComparison offset l) as [|n] eqn:Hub;
    [discriminate|].
  intros Hn. split; [eapply list_elem_of_lookup_2; eauto|]. split.
  - apply (upper_bound_before offset_ offset l n s); [|exact Hn].
    change (fun v e => v <? offset_ e) with SymbolOffsetComparison. lia.
  - intros t Ht Hle. apply list_elem_of_lookup_1 in Ht as [j Hj].
    destruct (Nat.le_gt_cases (S n) j) as [Hge|Hlt].
    + pose proof (upper_bound_after offset_ offset l j t Hs) as H.
      change (fun v e => v <? offset_ e) with SymbolOffsetComparison in H.
      rewrite Hub in H. specialize (H Hge Hj). lia.
    + destruct (Nat.eq_dec j n) as [Heq|Hne].
      * subst j. pose proof (eq_trans (eq_sym Hj) Hn) as Hts.
        inversion Hts; subst. lia.
      * apply (StronglySorted_lookup _ l j n t s Hs); [lia|exact Hj|exact Hn].
Qed.

Lemma greatest_symbol_le_None (offset : Z) (l : ImageSymbols) :
  sorted_by_offset l ->
  greatest_symbol_le l offset = None <->
  forall t, t ∈ l -> offset < offset_ t.
Proof.
  intros Hs. rewrite (greatest_symbol_le_upper_bound _ _ Hs).
  pose proof (upper_bound_le_length offset_ offset l) as Hlen.
  change (fun v e => v <? offset_ e) with SymbolOffsetComparison in Hlen.
  destruct (upper_bound SymbolOffsetComparison offset l) as [|n] eqn:Hub.
  - split; [|reflexivity]. intros _ t Ht.
    apply list_elem_of_lookup_1 in Ht as [j Hj].
    pose proof (upper_bound_after offset_ offset l j t Hs) as H.
    change (fun v e => v <? offset_ e) with SymbolOffsetComparison in H.
    rewrite Hub in H. apply H; [lia|exact Hj].
  - destruct (l !! n) as [s|] eqn:Hn.
    2:{ apply lookup_ge_None in Hn. lia. }
    split; [discriminate|]. intros H.
    assert (offset_ s <= offset).
    { apply (upper_bound_before offset_ offset l n s); [|exact Hn].
      change (fun v e => v <? offset_ e) with SymbolOffsetComparison. lia. }
    assert (offset < offset_ s); [|lia].
    apply H. eapply list_elem_of_lookup_2; eauto.
Qed.

(** *** [ResolveSymbol] *)

Lemma FindImage_Some_bounds (m : gmap Z Images) (pid a b : Z) (i : Image) :
  FindImage m pid a = Some (b, i) -> b <= a /\ a < add64 b (size i).
Proof.
  unfold FindImage. destruct (m !! pid) as [images|]; [|discriminate].
  destruct (length images =? 0)%nat; [discriminate|].
  destruct (map_upper_bound a images) as [|n] eqn:Hub; [discriminate|].
  simpl. rewrite Nat.sub_0_r.
  destruct (n =? length images)%nat; [discriminate|].
  destruct (images !! n) as [[b0 i0]|] eqn:Hn; [|discriminate].
  destruct (a >=? add64 b0 (size i0)) eqn:Hcmp; [discriminate|].
  intros [= <- <-]. split; [|lia].
  apply (upper_bound_before fst a images n (b0, i0)); [|exact Hn].
  unfold map_upper_bound in Hub. lia.
Qed.

Lemma add64_symbol_fits (s : Symbol) :
  symbol_fits s -> add64 (offset_ s) (size_ s) = offset_ s + size_ s.
Proof.
  unfold symbol_fits, add64, wrap64, uint64_max. intros (? & ? & ?).
  apply Z.mod_small. lia.
Qed.

Lemma cache_sorted_empty : cache_sorted ∅.
Proof. intros image table H. rewrite lookup_empty in H. discriminate. Qed.

Section Resolve.
Variable EnumerateSymbols : Image -> list Symbol.

Lemma GetImageSymbols_sorted (cache : gmap Image ImageSymbols)
    (image : Image) :
  cache_sorted cache ->
  sorted_by_offset (fst (GetImageSymbols EnumerateSymbols cache image)) /\
  cache_sorted (snd (GetImageSymbols EnumerateSymbols cache image)).
Proof.
  intros Hc. unfold GetImageSymbols.
  destruct (cache !! image) as [look|] eqn:Hl; simpl.
  - split; [apply (Hc _ _ Hl)|exact Hc].
  - split; [apply sort_symbols_sorted|].
    intros image' table.
    destruct (decide (image = image')) as [->|Hne].
    + rewrite lookup_insert_eq. intros [= <-]. apply sort_symbols_sorted.
    + rewrite lookup_insert_ne by exact Hne. apply Hc.
Qed.

(** The cache stays ordered through every resolution, whatever the
    build. *)
Lemma ResolveSymbol_cache_sorted (dbghelp : bool) (r : SymbolsResolver)
    (pid a : Z) :
  cache_sorted (symbol_cache_ r) ->
  cache_sorted
    (symbol_cache_ (snd (ResolveSymbol dbghelp EnumerateSymbols r pid a))).
Proof.
  intros Hc. unfold ResolveSymbol. destruct dbghelp; [|exact Hc].
  destruct (FindImage (pid_to_images_ r) pid a) as [[b i]|]; [|exact Hc].
  pose proof (GetImageSymbols_sorted (symbol_cache_ r) i Hc) as [_ H].
  destruct (GetImageSymbols EnumerateSymbols (symbol_cache_ r) i).
  exact H.
Qed.

(** Built without [USE_DBGHELP], nothing resolves. *)
Lemma ResolveSymbol_without_dbghelp (r : SymbolsResolver) (pid a : Z) :
  ResolveSymbol false EnumerateSymbols r pid a = (None, r).
Proof. reflexivity. Qed.

(** The search of [ResolveSymbol], built with [USE_DBGHELP]: when
    [FindImage] gives the image at base [b] for address [a], the image's
    table, ordered by offset, is searched at [offset = a - b]. The call
    fails when no symbol has an offset at or below [offset]; otherwise
    the greatest-offset such symbol [s] is taken and the call succeeds
    with [s] exactly when [offset] is not above the 64-bit sum of its
    offset and size. For a symbol whose end is a 64-bit value that sum is
    the integer sum, and the upper bound is closed. *)
Lemma ResolveSymbol_closed_upper_bound (r : SymbolsResolver)
    (pid a b : Z) (image : Image) :
  FindImage (pid_to_images_ r) pid a = Some (b, image) ->
  0 <= b ->
  cache_sorted (symbol_cache_ r) ->
  let table :=
    fst (GetImageSymbols EnumerateSymbols (symbol_cache_ r) image) in
  let offset := a - b in
  let resolved := fst (ResolveSymbol true EnumerateSymbols r pid a) in
  sorted_by_offset table /\
  (greatest_symbol_le table offset = None <->
   forall t, t ∈ table -> offset < offset_ t) /\
  (greatest_symbol_le table offset = None -> resolved = None) /\
  (forall s, greatest_symbol_le table offset = Some s ->
     s ∈ table /\ offset_ s <= offset /\
     (forall t, t ∈ table -> offset_ t <= offset ->
                offset_ t <= offset_ s) /\
     (resolved = Some s <-> offset <= add64 (offset_ s) (size_ s)) /\
     (symbol_fits s ->
      (resolved = Some s <-> offset <= offset_ s + size_ s) /\
      (offset_ s + size_ s < offset -> resolved = None) /\
      (offset = offset_ s + size_ s -> resolved = Some s))).
Proof.
  intros Hfind Hb Hc table offset resolved.
  pose proof (GetImageSymbols_sorted (symbol_cache_ r) image Hc)
    as [Hsorted _]. fold table in Hsorted.
  pose proof (FindImage_Some_bounds _ _ _ _ _ Hfind) as [Hle Hlt].
  assert (Hoff : sub64 a b = offset).
  { unfold sub64, wrap64, offset. apply Z.mod_small.
    unfold add64, wrap64 in Hlt.
    pose proof (Z.mod_pos_bound (b + size image) (2 ^ 64)). lia. }
  assert (Hres : resolved =
    match greatest_symbol_le table offset with
    | None => None
    | Some s =>
        if offset >? add64 (offset_ s) (size_ s) then None else Some s
    end).
  { unfold resolved, ResolveSymbol. rewrite Hfind.
    unfold table in *.
    destruct (GetImageSymbols EnumerateSymbols (symbol_cache_ r) image)
      as [syms cache'] eqn:Hget.
    simpl in *. rewrite Hoff.
    apply resolve_in_table_greatest, Hsorted. }
  split; [exact Hsorted|].
  split; [apply greatest_symbol_le_None, Hsorted|].
  split; [intros Hnone; rewrite Hres, Hnone; reflexivity|].
  intros s Hs.
  destruct (greatest_symbol_le_Some _ _ _ Hsorted Hs) as (Hin & Hsle & Hmax).
  rewrite Hs in Hres.
  split; [exact Hin|]. split; [exact Hsle|]. split; [exact Hmax|].
  assert (Hcode : resolved = Some s <-> offset <= add64 (offset_ s) (size_ s)).
  { rewrite Hres.
    destruct (offset >? add64 (offset_ s) (size_ s)) eqn:Hcmp.
    - split; [discriminate|lia].
    - split; [intros _; lia|reflexivity]. }
  split; [exact Hcode|].
  intros Hfits. rewrite (add64_symbol_fits _ Hfits) in Hcode.
  split; [exact Hcode|]. split.
  - intros Hgt. rewrite Hres, (add64_symbol_fits _ Hfits).
    destruct (offset >? offset_ s + size_ s) eqn:Hcmp; [reflexivity|lia].
  - intros Heq. apply Hcode. lia.
Qed.

End Resolve.

Example ResolveSymbol_closed_upper_bound_example :
  fst (ResolveSymbol true examples.test_symbols examples.test_resolver
         examples.kPid 10020)
  = Some (mkSymbol [98] 16 4).
Proof.
  destruct (ResolveSymbol_closed_upper_bound examples.test_symbols
              examples.test_resolver examples.kPid 10020 10000
              examples.image_a) as (_ & _ & _ & H).
  - vm_compute. reflexivity.
  - lia.
  - apply cache_sorted_empty.
  - destruct (H (mkSymbol [98] 16 4)) as (_ & _ & _ & _ & Hfits).
    + vm_compute. reflexivity.
    + destruct Hfits as (_ & _ & Hclosed).
      * unfold symbol_fits, uint64_max. simpl. lia.
      * apply Hclosed. reflexivity.
Qed.


End symbols_facts.

(** ** Facts about the state sink *)
Module state_facts.
Import base state.

Section Sink.
Variable USE_DBGHELP : bool.
Variable EnumerateSymbols : symbols.Image -> list symbols.Symbol.

Local Abbreviation OnEvent := (state.OnEvent USE_DBGHELP EnumerateSymbols).

(** An Image/Load or Image/DCStart event goes to [OnImageLoad]. *)
Lemma OnEvent_image_load (s : CurrentState) (e : event.Event)
    (operation : string) :
  event.GetFieldAsString (event.header e) event.kCategoryFieldName
    = Some kImageCategory ->
  event.GetFieldAsString (event.header e) event.kOperationFieldName
    = Some operation ->
  operation = kImageLoadOperation \/ operation = kImageDCStartOperation ->
  OnEvent s e = OnImageLoad s e.
Proof.
  intros Hc Ho Hop. unfold OnEvent, state.OnEvent. rewrite Hc, Ho.
  destruct Hop as [-> | ->]; reflexivity.
Qed.

(** C5. For an event of category "Image" and operation "Load" or
    "DCStart": when the six accessors succeed, the sink's state after
    the event is the state with [LoadImage pid base_address image]
    applied to the image map, [image] being built from exactly the four
    values read, and the rest of the state untouched; when any of the
    six fails, the state, and so the image map, is unchanged. *)
Theorem OnEvent_image_load_all_or_nothing (s : CurrentState)
    (e : event.Event) (operation : string) :
  event.GetFieldAsString (event.header e) event.kCategoryFieldName
    = Some "Image" ->
  event.GetFieldAsString (event.header e) event.kOperationFieldName
    = Some operation ->
  operation = "Load" \/ operation = "DCStart" ->
  (forall size checksum timestamp filename base_address pid,
     event.GetFieldAsUInteger (event.payload e) "ModuleSize"
       = Some size ->
     event.GetFieldAsUInteger (event.payload e) "ImageCheckSum"
       = Some checksum ->
     event.GetFieldAsUInteger (event.payload e) "TimeDateStamp"
       = Some timestamp ->
     event.GetFieldAsWString (event.payload e) "ImageFileName"
       = Some filename ->
     event.GetFieldAsULong (event.payload e) "BaseAddress"
       = Some base_address ->
     event.GetFieldAsULong (event.header e) event.kProcessIdFieldName
       = Some pid ->
     OnEvent s e =
     mkCurrentState
       (symbols.mkSymbolsResolver
          (symbols.LoadImage (symbols.pid_to_images_ (symbols_ s))
             pid base_address
             (symbols.mkImage size checksum timestamp filename))
          (symbols.symbol_cache_ (symbols_ s)))) /\
  (event.GetFieldAsUInteger (event.payload e) "ModuleSize" = None \/
   event.GetFieldAsUInteger (event.payload e) "ImageCheckSum" = None \/
   event.GetFieldAsUInteger (event.payload e) "TimeDateStamp" = None \/
   event.GetFieldAsWString (event.payload e) "ImageFileName" = None \/
   event.GetFieldAsULong (event.payload e) "BaseAddress" = None \/
   event.GetFieldAsULong (event.header e) event.kProcessIdFieldName
     = None ->
   OnEvent s e = s).
Proof.
  intros Hc Ho Hop.
  rewrite (OnEvent_image_load s e operation Hc Ho Hop).
  unfold OnImageLoad. split.
  - intros size checksum timestamp filename base_address pid
      -> -> -> -> -> ->. reflexivity.
  - intros H.
    destruct (event.GetFieldAsUInteger (event.payload e) "ModuleSize");
      [|reflexivity].
    destruct (event.GetFieldAsUInteger (event.payload e) "ImageCheckSum");
      [|reflexivity].
    destruct (event.GetFieldAsUInteger (event.payload e) "TimeDateStamp");
      [|reflexivity].
    destruct (event.GetFieldAsWString (event.payload e) "ImageFileName");
      [|reflexivity].
    destruct (event.GetFieldAsULong (event.payload e) "BaseAddress");
      [|reflexivity].
    destruct (event.GetFieldAsULong (event.header e)
                event.kProcessIdFieldName);
      [|reflexivity].
    destruct H as [H|[H|[H|[H|[H|H]]]]]; discriminate.
Qed.

(** C8. An event whose (category, operation) pair is none of
    (Image, Load), (Image, DCStart), (Image, Unload) and
    (StackWalk, Stack) leaves the sink's state, image map and symbol
    cache alike, as it was; (Image, KernelBase) is such a pair. *)
Theorem OnEvent_other_pairs_ignored (s : CurrentState) (e : event.Event)
    (category operation : string) :
  event.GetFieldAsString (event.header e) event.kCategoryFieldName
    = Some category ->
  event.GetFieldAsString (event.header e) event.kOperationFieldName
    = Some operation ->
  (category, operation) <> ("Image", "Load") ->
  (category, operation) <> ("Image", "DCStart") ->
  (category, operation) <> ("Image", "Unload") ->
  (category, operation) <> ("StackWalk", "Stack") ->
  OnEvent s e = s.
Proof.
  intros Hc Ho H1 H2 H3 H4. unfold OnEvent, state.OnEvent.
  rewrite Hc, Ho.
  unfold kImageCategory, kImageLoadOperation, kImageDCStartOperation,
    kImageUnloadOperation, kImageKernelBase, kStackWalkCategory,
    kStackOperation.
  destruct (String.eqb_spec category "Image") as [->|Hcat].
  - destruct (String.eqb_spec operation "Load") as [->|_];
      [congruence|].
    destruct (String.eqb_spec operation "DCStart") as [->|_];
      [congruence|].
    destruct (String.eqb_spec operation "Unload") as [->|_];
      [congruence|].
    simpl. destruct (String.eqb operation "KernelBase"); reflexivity.
  - destruct (String.eqb_spec category "StackWalk") as [->|_];
      [|reflexivity].
    destruct (String.eqb_spec operation "Stack") as [->|_];
      [congruence|reflexivity].
Qed.

(** An event without a category or an operation in its header is
    ignored as well. *)
Lemma OnEvent_no_pair_ignored (s : CurrentState) (e : event.Event) :
  event.GetFieldAsString (event.header e) event.kCategoryFieldName
    = None \/
  event.GetFieldAsString (event.header e) event.kOperationFieldName
    = None ->
  OnEvent s e = s.
Proof.
  unfold OnEvent, state.OnEvent. intros [H|H]; rewrite H; [reflexivity|].
  destruct (event.GetFieldAsString (event.header e)
              event.kCategoryFieldName); reflexivity.
Qed.

End Sink.

Lemma OnEvent_image_load_all_or_nothing_witness :
  state.OnEvent true examples.test_symbols examples.test_state
    examples.image_dcstart_event =
  mkCurrentState
    (symbols.mkSymbolsResolver
       (symbols.LoadImage
          (symbols.pid_to_images_ (symbols_ examples.test_state))
          7644 0x1160000
          (symbols.mkImage 0x19E000 1268934759 3405691582
             [97; 46; 101; 120; 101]))
       (symbols.symbol_cache_ (symbols_ examples.test_state))).
Proof.
  apply (OnEvent_image_load_all_or_nothing true examples.test_symbols
           examples.test_state examples.image_dcstart_event "DCStart");
    try reflexivity.
  right; reflexivity.
Defined.

Lemma OnEvent_other_pairs_ignored_witness :
  state.OnEvent true examples.test_symbols examples.test_state
    examples.kernel_base_event = examples.test_state.
Proof.
  apply (OnEvent_other_pairs_ignored true examples.test_symbols
           examples.test_state examples.kernel_base_event
           "Image" "KernelBase");
    try reflexivity; discriminate.
Defined.

End state_facts.

(** ** Facts about the composite decoders *)
Module parser_facts.
Import base parser spec.

Lemma unread_advance (d : Decoder) (n : nat) :
  unread (advance d n) = skipn n (unread d).
Proof. unfold unread, advance; simpl. rewrite drop_drop. reflexivity. Qed.

Lemma advance_advance (d : Decoder) (n k : nat) :
  advance (advance d n) k = advance d (n + k).
Proof. unfold advance; simpl. f_equal. lia. Qed.

Lemma length_unread (d : Decoder) :
  length (unread d) = (length (buffer d) - position d)%nat.
Proof. unfold unread. apply length_drop. Qed.

Lemma read_bytes_ok (n : nat) (d : Decoder) :
  (n <= length (unread d))%nat ->
  (position d <= length (buffer d))%nat ->
  read_bytes n d = (Some (firstn n (unread d)), advance d n).
Proof.
  intros Hn Hp. rewrite length_unread in Hn. unfold read_bytes.
  destruct (position d + n <=? length (buffer d))%nat eqn:E;
    [reflexivity|].
  apply Nat.leb_gt in E. lia.
Qed.

Lemma read_bytes_fail (n : nat) (d : Decoder) :
  (length (unread d) < n)%nat -> read_bytes n d = (None, d).
Proof.
  intros Hn. rewrite length_unread in Hn. unfold read_bytes.
  destruct (position d + n <=? length (buffer d))%nat eqn:E;
    [|reflexivity].
  apply Nat.leb_le in E. lia.
Qed.

Lemma Decoder_Decode_ok (k : Kind) (d : Decoder) :
  (sizeof k <= length (unread d))%nat ->
  (position d <= length (buffer d))%nat ->
  Decoder_Decode k d =
  (Some (make k (le_combine (firstn (sizeof k) (unread d)))),
   advance d (sizeof k)).
Proof.
  intros Hn Hp. unfold Decoder_Decode, bind.
  rewrite (read_bytes_ok _ _ Hn Hp). reflexivity.
Qed.

Lemma Decode_ok (k : Kind) (name : string) (fields : event.Fields)
    (d : Decoder) :
  (sizeof k <= length (unread d))%nat ->
  (position d <= length (buffer d))%nat ->
  Decode k name fields d =
  (Some (fields ++
         [(name, make k (le_combine (firstn (sizeof k) (unread d))))]),
   advance d (sizeof k)).
Proof.
  intros Hn Hp. unfold Decode, bind.
  rewrite (Decoder_Decode_ok _ _ Hn Hp). reflexivity.
Qed.

Lemma le_combine_single (b : byte) : le_combine [b] = byte_value b.
Proof. simpl. rewrite Z.shiftl_0_l. apply Z.lor_0_r. Qed.

(** Reading [n] unsigned chars gives the next [n] bytes, one value each,
    and moves the cursor past them. *)
Lemma decode_elements_ok (n : nat) (d : Decoder) :
  (n <= length (unread d))%nat ->
  (position d <= length (buffer d))%nat ->
  decode_elements KUChar n d =
  (Some (map (fun b => event.UCharValue (byte_value b))
           (firstn n (unread d))),
   advance d n).
Proof.
  revert d; induction n as [|n IH]; intros d Hn Hp.
  - simpl. unfold ret, advance. rewrite Nat.add_0_r.
    destruct d; reflexivity.
  - change (decode_elements KUChar (S n))
      with (bind (Decoder_Decode KUChar)
              (fun v => bind (decode_elements KUChar n)
                          (fun rest => ret (v :: rest)))).
    unfold bind at 1.
    rewrite (Decoder_Decode_ok KUChar d); [|simpl; lia|exact Hp].
    change (sizeof KUChar) with 1%nat. cbv beta iota.
    pose proof (length_unread d) as Hlen.
    assert (Hp1 : (position (advance d 1) <= length (buffer (advance d 1)))%nat).
    { unfold advance; simpl. lia. }
    assert (Hn1 : (n <= length (unread (advance d 1)))%nat).
    { rewrite unread_advance, length_drop. lia. }
    unfold bind. rewrite (IH _ Hn1 Hp1). cbv beta iota.
    rewrite unread_advance, advance_advance. unfold ret.
    destruct (unread d) as [|b rest]; [simpl in Hn; lia|].
    simpl. rewrite drop_0.
    change (Z.lor (byte_value b) (Z.shiftl 0 8)) with (le_combine [b]).
    rewrite le_combine_single. reflexivity.
Qed.

Lemma decode_elements_fail (n : nat) (d : Decoder) :
  (length (unread d) < n)%nat ->
  (position d <= length (buffer d))%nat ->
  fst (decode_elements KUChar n d) = None.
Proof.
  revert d; induction n as [|n IH]; intros d Hn Hp; [lia|].
  change (decode_elements KUChar (S n))
    with (bind (Decoder_Decode KUChar)
            (fun v => bind (decode_elements KUChar n)
                        (fun rest => ret (v :: rest)))).
  unfold bind at 1.
  destruct (Nat.le_gt_cases 1 (length (unread d))) as [H1|H0].
  - rewrite (Decoder_Decode_ok KUChar d); [|simpl; lia|exact Hp].
    change (sizeof KUChar) with 1%nat. cbv beta iota.
    pose proof (length_unread d) as Hlen.
    assert (Hp1 : (position (advance d 1) <= length (buffer (advance d 1)))%nat).
    { unfold advance; simpl. lia. }
    assert (Hn1 : (length (unread (advance d 1)) < n)%nat).
    { rewrite unread_advance, length_drop. lia. }
    specialize (IH _ Hn1 Hp1). unfold bind.
    destruct (decode_elements KUChar n (advance d 1)) as [[x|] d'];
      [discriminate|reflexivity].
  - unfold Decoder_Decode, bind.
    rewrite read_bytes_fail by (simpl; lia). reflexivity.
Qed.

Lemma RemainingBytes_unread (d : Decoder) :
  RemainingBytes d = Z.of_nat (length (unread d)).
Proof. unfold RemainingBytes. rewrite length_unread. reflexivity. Qed.

(** [Lookup] reads the unread byte at the given offset and leaves the
    cursor alone. *)
Lemma Lookup_unread (d : Decoder) (offset : nat) :
  Lookup d offset = byte_value (nth offset (unread d) "000"%byte).
Proof.
  unfold Lookup, unread. rewrite nth_lookup, lookup_drop.
  destruct (buffer d !! (position d + offset)%nat); reflexivity.
Qed.

(** The last two steps of [DecodeSID], from the cursor at the SID body. *)
Lemma DecodeSID_body (name : string) (fields sid : event.Fields)
    (length : Z) (d : Decoder) :
  (position d <= List.length (buffer d))%nat ->
  ((Z.to_nat length <= List.length (unread d))%nat ->
   (sid' <- DecodeArray KUChar "Sid" length sid ;;
    lift (event.AddField fields name (event.StructValue sid'))) d =
   (Some (fields ++
          [(name,
            event.StructValue
              (sid ++
               [("Sid", uchar_array (firstn (Z.to_nat length) (unread d)))]))]),
    advance d (Z.to_nat length))) /\
  ((List.length (unread d) < Z.to_nat length)%nat ->
   fst ((sid' <- DecodeArray KUChar "Sid" length sid ;;
         lift (event.AddField fields name (event.StructValue sid'))) d)
   = None).
Proof.
  intros Hp. split; intros Hlen.
  - unfold bind, DecodeArray, bind.
    rewrite (decode_elements_ok _ _ Hlen Hp). reflexivity.
  - unfold bind, DecodeArray, bind.
    pose proof (decode_elements_fail _ _ Hlen Hp) as Hfail.
    destruct (decode_elements KUChar (Z.to_nat length) d) as [[x|] d'];
      [discriminate|reflexivity].
Qed.

(** C4. [DecodeSID] fails, with the cursor and the fields untouched, when
    fewer than 3 * 8 bytes remain. Otherwise it reads a pointer-width
    [PSid] (4 bytes as a [UIntValue], or 8 bytes as a [ULongValue] when
    64-bit), a 4-byte [Attributes] word, 4 bytes of padding only when
    64-bit, peeks byte 1 of the body that follows as the sub-authority
    count without moving the cursor, and reads exactly
    [4 * sub_authority_count + 8] bytes from the start of that body as the
    [Sid] array; the struct is then added under [name]. When the buffer
    ends before the body does, the call fails and no field is added. *)
Theorem DecodeSID_layout (name : string) (is_64_bit : bool)
    (fields : event.Fields) (d : Decoder) :
  (RemainingBytes d < 3 * 8 ->
   DecodeSID name is_64_bit fields d = (None, d)) /\
  (3 * 8 <= RemainingBytes d ->
   let bytes := unread d in
   let header := sid_header_size is_64_bit in
   let body := sid_body_size is_64_bit bytes in
   Lookup (advance d header) 1 = sub_authority_count is_64_bit bytes /\
   ((header + body <= length bytes)%nat ->
    DecodeSID name is_64_bit fields d =
    (Some (fields ++ [(name, sid_struct is_64_bit bytes)]),
     advance d (header + body))) /\
   ((length bytes < header + body)%nat ->
    fst (DecodeSID name is_64_bit fields d) = None)).
Proof.
  rewrite RemainingBytes_unread. split.
  - intros Hlt. unfold DecodeSID. rewrite RemainingBytes_unread.
    destruct (Z.of_nat (length (unread d)) <? 3 * 8) eqn:E;
      [reflexivity|apply Z.ltb_ge in E; lia].
  - intros Hge bytes header body.
    pose proof (length_unread d) as Hlen.
    assert (Hp : (position d <= length (buffer d))%nat) by lia.
    assert (Hlook : Lookup (advance d header) 1
                    = sub_authority_count is_64_bit bytes).
    { rewrite Lookup_unread, unread_advance. reflexivity. }
    split; [exact Hlook|].
    assert (Hstep : DecodeSID name is_64_bit fields d =
      (sid' <- DecodeArray KUChar "Sid"
                 (4 * sub_authority_count is_64_bit bytes + 8)
                 [("PSid",
                   make (pointer_kind is_64_bit)
                     (le_combine (firstn (pointer_size is_64_bit) bytes)));
                  ("Attributes",
                   event.UIntValue
                     (le_combine
                        (firstn 4 (skipn (pointer_size is_64_bit) bytes))))] ;;
       lift (event.AddField fields name (event.StructValue sid')))
        (advance d header)).
    { unfold DecodeSID. rewrite RemainingBytes_unread.
      destruct (Z.of_nat (length (unread d)) <? 3 * 8) eqn:E;
        [apply Z.ltb_lt in E; lia|].
      rewrite <- Hlook. unfold header, sid_header_size, bytes.
      destruct is_64_bit; unfold DecodeUInteger, pointer_kind,
        pointer_size, sid_padding.
      - unfold bind at 1.
        rewrite (Decode_ok KULong); [|simpl; lia|exact Hp].
        cbv beta iota. unfold bind at 1.
        rewrite (Decode_ok KUInt);
          [|rewrite unread_advance, length_drop; simpl; lia
           |unfold advance; simpl; lia].
        cbv beta iota. unfold bind at 1. unfold bind at 1.
        rewrite (Decoder_Decode_ok KUInt);
          [|rewrite !unread_advance, !length_drop; simpl; lia
           |unfold advance; simpl; lia].
        cbv beta iota. unfold ret.
        rewrite !advance_advance, unread_advance. reflexivity.
      - unfold bind at 1.
        rewrite (Decode_ok KUInt); [|simpl; lia|exact Hp].
        cbv beta iota. unfold bind at 1.
        rewrite (Decode_ok KUInt);
          [|rewrite unread_advance, length_drop; simpl; lia
           |unfold advance; simpl; lia].
        cbv beta iota. unfold bind at 1. unfold ret.
        rewrite !advance_advance, unread_advance. reflexivity. }
    assert (Hp' : (position (advance d header)
                   <= length (buffer (advance d header)))%nat).
    { unfold advance, header, sid_header_size, pointer_size, sid_padding.
      simpl. destruct is_64_bit; lia. }
    destruct (DecodeSID_body name fields
                [("PSid",
                  make (pointer_kind is_64_bit)
                    (le_combine (firstn (pointer_size is_64_bit) bytes)));
                 ("Attributes",
                  event.UIntValue
                    (le_combine
                       (firstn 4 (skipn (pointer_size is_64_bit) bytes))))]
                (4 * sub_authority_count is_64_bit bytes + 8)
                (advance d header) Hp') as [Hok Hfail].
    rewrite unread_advance, length_drop in Hok, Hfail.
    fold bytes in Hok, Hfail. fold (sid_body_size is_64_bit bytes) in Hok, Hfail.
    fold body in Hok, Hfail.
    assert (Hh : (header <= length bytes)%nat).
    { unfold header, sid_header_size, pointer_size, sid_padding, bytes.
      destruct is_64_bit; lia. }
    split.
    + intros Hfit. rewrite Hstep, Hok by lia.
      rewrite advance_advance. reflexivity.
    + intros Hshort. rewrite Hstep. apply Hfail. lia.
Qed.

Lemma DecodeSID_layout_witness :
  DecodeSID "UserSID" true [] examples.sid_decoder =
  (Some [("UserSID", examples.expected_sid)],
   mkDecoder examples.kProcessDCStartPayloadV3 60).
Proof.
  destruct (DecodeSID_layout "UserSID" true [] examples.sid_decoder)
    as [_ H].
  destruct H as (_ & Hok & _).
  - unfold RemainingBytes. simpl. lia.
  - refine (eq_trans (Hok _) _).
    + apply Nat.leb_le. vm_compute. reflexivity.
    + vm_compute. reflexivity.
Defined.

End parser_facts.

(** ** Facts about the ETW parser front-end *)
Module etw_facts.
Import base etw spec.

Lemma wstring_eqb_eq (a b : wstring) : wstring_eqb a b = true <-> a = b.
Proof.
  revert b; induction a as [|x a IH]; intros [|y b]; simpl;
    try (split; [discriminate|discriminate]); [tauto|].
  rewrite andb_true_iff, Z.eqb_eq, IH. split.
  - intros [-> ->]; reflexivity.
  - intros [= -> ->]; auto.
Qed.

(** [WStringEndsWith] is the suffix test. *)
Lemma WStringEndsWith_suffix (str ending : wstring) :
  WStringEndsWith str ending = true <->
  exists prefix, str = prefix ++ ending.
Proof.
  unfold WStringEndsWith. rewrite andb_true_iff, Nat.leb_le, wstring_eqb_eq.
  split.
  - intros [_ H]. exists (firstn (length str - length ending) str).
    set (k := (length str - length ending)%nat) in *.
    rewrite <- H. symmetry. apply take_drop.
  - intros [prefix ->]. rewrite length_app. split; [lia|].
    replace (length prefix + length ending - length ending)%nat
      with (length prefix) by lia.
    apply drop_app_length.
Qed.

Section AddTraceFile.
Context {double : Type}.

Lemma AddTraceFile_cases (p : ETWParser double) (path : wstring) :
  AddTraceFile p path =
  match traces_ p with
  | [] =>
      if WStringEndsWith path kEtlExtension
      then (true,
            mkETWParser [path] (first_event_system_ts_ p)
              (first_event_raw_ts_ p) (perf_period_ p))
      else (false, p)
  | _ :: _ => (false, p)
  end.
Proof.
  unfold etw.AddTraceFile. destruct (traces_ p); simpl; [|reflexivity].
  destruct (WStringEndsWith path kEtlExtension); reflexivity.
Qed.

(** C6. [AddTraceFile] fails whenever a source is already registered
    and whenever the path does not end in ".etl"; a failing call leaves
    the parser, and so the registered sources, as they were; on a parser
    without a source a path ending in ".etl" is accepted and becomes the
    only source, so the first call on a new parser succeeds with such a
    path, and every call after an accepted one fails. *)
Theorem AddTraceFile_at_most_one (p : ETWParser double) (path : wstring) :
  (traces_ p <> [] -> AddTraceFile p path = (false, p)) /\
  (WStringEndsWith path kEtlExtension = false ->
   AddTraceFile p path = (false, p)) /\
  (traces_ p = [] -> WStringEndsWith path kEtlExtension = true ->
   AddTraceFile p path =
   (true,
    mkETWParser [path] (first_event_system_ts_ p)
      (first_event_raw_ts_ p) (perf_period_ p))) /\
  (fst (AddTraceFile p path) = false -> snd (AddTraceFile p path) = p) /\
  (forall double_zero : double,
     WStringEndsWith path kEtlExtension = true ->
     fst (AddTraceFile (ETWParser_new double_zero) path) = true) /\
  (forall p', AddTraceFile p path = (true, p') ->
     traces_ p' = [path] /\
     forall path', AddTraceFile p' path' = (false, p')).
Proof.
  pose proof (AddTraceFile_cases p path) as Hp.
  split; [|split; [|split; [|split; [|split]]]].
  - intros Hne. rewrite Hp. destruct (traces_ p); [congruence|reflexivity].
  - intros Hs. rewrite Hp, Hs. destruct (traces_ p); reflexivity.
  - intros Ht Hs. rewrite Hp, Ht, Hs. reflexivity.
  - rewrite Hp. destruct (traces_ p); [|reflexivity].
    destruct (WStringEndsWith path kEtlExtension);
      [discriminate|reflexivity].
  - intros double_zero Hs. rewrite AddTraceFile_cases. simpl.
    rewrite Hs. reflexivity.
  - intros p' Hok. rewrite Hp in Hok.
    destruct (traces_ p); [|discriminate].
    destruct (WStringEndsWith path kEtlExtension); [|discriminate].
    inversion Hok; subst p'. split; [reflexivity|].
    intros path'. rewrite AddTraceFile_cases. reflexivity.
Qed.

End AddTraceFile.

Lemma AddTraceFile_at_most_one_witness :
  AddTraceFile examples.binary64_parser examples.trace_path =
  (true,
   mkETWParser [examples.trace_path] 0 0 (SpecFloat.S754_zero false)) /\
  AddTraceFile examples.started_parser examples.trace_path =
  (false, examples.started_parser) /\
  AddTraceFile examples.binary64_parser [116; 46; 116; 120; 116] =
  (false, examples.binary64_parser).
Proof.
  split; [|split].
  - destruct (AddTraceFile_at_most_one examples.binary64_parser
                examples.trace_path) as (_ & _ & Hfirst & _).
    apply Hfirst; reflexivity.
  - destruct (AddTraceFile_at_most_one examples.started_parser
                examples.trace_path) as (Hsecond & _).
    apply Hsecond. simpl. discriminate.
  - destruct (AddTraceFile_at_most_one examples.binary64_parser
                [116; 46; 116; 120; 116]) as (_ & Hsuffix & _).
    apply Hsuffix. reflexivity.
Defined.

(** C9. The PerfInfo provider's DebuggerEnabled event (opcode 58,
    version 2, 64-bit) with an empty payload, given as a null buffer of
    length 0 or as a non-null buffer of length 0, decodes to category
    "PerfInfo", operation "DebuggerEnabled" and a struct without
    fields. *)
Theorem DebuggerEnabled_empty_payload :
  DecodeRawETWKernelPayload "CE1DBFB4-137E-4DA6-87B0-3F59AA102CBC"
    2 58 true None 0
  = Some ("DebuggerEnabled", "PerfInfo", event.StructValue []) /\
  DecodeRawETWKernelPayload "CE1DBFB4-137E-4DA6-87B0-3F59AA102CBC"
    2 58 true (Some ["000"%byte]) 0
  = Some ("DebuggerEnabled", "PerfInfo", event.StructValue []).
Proof. split; reflexivity. Qed.

Section ProcessEvent.
Context {double : Type}.
Variable double_of_uint64 : Z -> double.
Variable double_mul : double -> double -> double.
Variable uint64_of_double : double -> Z.
Variable DecodeRawETWKernelPayload :
  string -> Z -> Z -> bool -> option (list byte) -> nat ->
  option (string * string * event.Value).

Local Abbreviation ProcessEvent :=
  (etw.ProcessEvent double_of_uint64 double_mul uint64_of_double
     DecodeRawETWKernelPayload).
Local Abbreviation process_records :=
  (etw.process_records double_of_uint64 double_mul uint64_of_double
     DecodeRawETWKernelPayload).
Local Abbreviation system_ts :=
  (etw.system_ts double_of_uint64 double_mul uint64_of_double).

(** [ProcessEvent] changes the parser by the latch alone, whether the
    record decodes or not. *)
Lemma ProcessEvent_parser (p : ETWParser double) (pevent : EVENT_RECORD) :
  fst (ProcessEvent p pevent) = latch_raw_ts p pevent.
Proof.
  unfold etw.ProcessEvent.
  destruct (DecodeRawETWPayload _ _ _ _ _ _ _) as [[[? ?] ?]|];
    reflexivity.
Qed.

Lemma ProcessEvent_timestamp (p : ETWParser double)
    (pevent : EVENT_RECORD) (e : event.Event) :
  snd (ProcessEvent p pevent) = Some e ->
  event.timestamp e = system_ts (latch_raw_ts p pevent) pevent.
Proof.
  unfold etw.ProcessEvent.
  destruct (DecodeRawETWPayload _ _ _ _ _ _ _) as [[[? ?] ?]|]; simpl;
    [|discriminate].
  intros [= <-]. reflexivity.
Qed.

Lemma latch_raw_ts_baseline (p : ETWParser double)
    (pevent : EVENT_RECORD) :
  first_event_raw_ts_ (latch_raw_ts p pevent) =
  if first_event_raw_ts_ p =? 0 then raw_ts pevent
  else first_event_raw_ts_ p.
Proof.
  unfold etw.latch_raw_ts.
  destruct (first_event_raw_ts_ p =? 0); reflexivity.
Qed.

Lemma process_records_baseline (p : ETWParser double)
    (records : list EVENT_RECORD) :
  first_event_raw_ts_ (fst (process_records p records)) =
  if first_event_raw_ts_ p =? 0 then first_nonzero (map raw_ts records)
  else first_event_raw_ts_ p.
Proof.
  revert p; induction records as [|pevent rest IH]; intros p.
  - simpl. destruct (first_event_raw_ts_ p =? 0) eqn:E; [|reflexivity].
    apply Z.eqb_eq, E.
  - change (process_records p (pevent :: rest)) with
      (let '(p', sent) := ProcessEvent p pevent in
       let '(p'', events) := process_records p' rest in
       (p'', match sent with Some e => e :: events | None => events end)).
    pose proof (ProcessEvent_parser p pevent) as Hp.
    destruct (ProcessEvent p pevent) as [p' sent].
    simpl in Hp. subst p'.
    specialize (IH (latch_raw_ts p pevent)).
    destruct (process_records (latch_raw_ts p pevent) rest)
      as [p'' events].
    simpl in *. rewrite IH, latch_raw_ts_baseline.
    destruct (first_event_raw_ts_ p =? 0) eqn:E; [|rewrite E; reflexivity].
    destruct (raw_ts pevent =? 0); reflexivity.
Qed.

(** C10. [ProcessEvent] stores a record's raw timestamp as the baseline
    only when the stored baseline is zero, and computes the record's
    timestamp with the baseline as it is after that. So after any
    records on a parser whose baseline was zero, the baseline is the
    first nonzero raw timestamp among them; and when the first record
    has raw timestamp 0, its timestamp is computed with baseline 0 and
    the baseline is taken from the records after it. *)
Theorem baseline_is_first_nonzero_raw_timestamp :
  (forall (p : ETWParser double) pevent,
     first_event_raw_ts_ (fst (ProcessEvent p pevent)) =
     if first_event_raw_ts_ p =? 0 then raw_ts pevent
     else first_event_raw_ts_ p) /\
  (forall (p : ETWParser double) pevent e,
     snd (ProcessEvent p pevent) = Some e ->
     event.timestamp e = system_ts (latch_raw_ts p pevent) pevent) /\
  (forall (p : ETWParser double) records,
     first_event_raw_ts_ p = 0 ->
     first_event_raw_ts_ (fst (process_records p records)) =
     first_nonzero (map raw_ts records)) /\
  (forall (p : ETWParser double) pevent rest,
     first_event_raw_ts_ p = 0 -> raw_ts pevent = 0 ->
     (forall e, snd (ProcessEvent p pevent) = Some e ->
        event.timestamp e =
        add64 (first_event_system_ts_ p)
          (uint64_of_double
             (double_mul (double_of_uint64 (sub64 0 0))
                (perf_period_ p)))) /\
     first_event_raw_ts_ (fst (process_records p (pevent :: rest))) =
     first_nonzero (map raw_ts rest)).
Proof.
  split; [|split; [|split]].
  - intros p pevent. rewrite ProcessEvent_parser.
    apply latch_raw_ts_baseline.
  - apply ProcessEvent_timestamp.
  - intros p records Hp. rewrite process_records_baseline, Hp.
    reflexivity.
  - intros p pevent rest Hp Hraw. split.
    + intros e He. rewrite (ProcessEvent_timestamp _ _ _ He).
      unfold etw.system_ts, etw.latch_raw_ts. rewrite Hp. simpl.
      unfold raw_ts in Hraw. rewrite Hraw. reflexivity.
    + rewrite process_records_baseline, Hp. simpl. rewrite Hraw.
      reflexivity.
Qed.

(** The latch leaves the system time of the first event and the period
    as they are. *)
Lemma latch_raw_ts_keeps (p : ETWParser double) (pevent : EVENT_RECORD) :
  first_event_system_ts_ (latch_raw_ts p pevent) = first_event_system_ts_ p
  /\ perf_period_ (latch_raw_ts p pevent) = perf_period_ p.
Proof.
  unfold etw.latch_raw_ts.
  destruct (first_event_raw_ts_ p =? 0); split; reflexivity.
Qed.

Lemma process_records_cons (p : ETWParser double) (pevent : EVENT_RECORD)
    (rest : list EVENT_RECORD) :
  process_records p (pevent :: rest) =
  (fst (process_records (fst (ProcessEvent p pevent)) rest),
   match snd (ProcessEvent p pevent) with
   | Some e => [e]
   | None => []
   end ++ snd (process_records (fst (ProcessEvent p pevent)) rest)).
Proof.
  change (process_records p (pevent :: rest)) with
    (let '(p', sent) := ProcessEvent p pevent in
     let '(p'', events) := process_records p' rest in
     (p'', match sent with Some e => e :: events | None => events end)).
  destruct (ProcessEvent p pevent) as [p' sent]. cbn [fst snd].
  destruct (process_records p' rest) as [p'' events].
  destruct sent; reflexivity.
Qed.

(** The records of one [ProcessTrace] call are handled one after the
    other: the events of a sequence are those of its first part followed
    by those of the rest, handled by the parser that the first part
    leaves. *)
Lemma process_records_app (p : ETWParser double)
    (before after : list EVENT_RECORD) :
  process_records p (before ++ after) =
  (fst (process_records (fst (process_records p before)) after),
   snd (process_records p before) ++
   snd (process_records (fst (process_records p before)) after)).
Proof.
  revert p; induction before as [|pevent rest IH]; intros p.
  - simpl. destruct (process_records p after); reflexivity.
  - change ((pevent :: rest) ++ after) with (pevent :: (rest ++ after)).
    rewrite !process_records_cons, IH. cbn [fst snd].
    rewrite <- app_assoc. reflexivity.
Qed.

(** The system time of the first event and the period are the same for
    every record of one [ProcessTrace] call. *)
Lemma process_records_keeps (p : ETWParser double)
    (records : list EVENT_RECORD) :
  first_event_system_ts_ (fst (process_records p records))
    = first_event_system_ts_ p /\
  perf_period_ (fst (process_records p records)) = perf_period_ p.
Proof.
  revert p; induction records as [|pevent rest IH]; intros p.
  - split; reflexivity.
  - rewrite process_records_cons. cbn [fst].
    destruct (IH (fst (ProcessEvent p pevent))) as [-> ->].
    rewrite ProcessEvent_parser. apply latch_raw_ts_keeps.
Qed.

End ProcessEvent.

Section Parse.
Context {double : Type}.
Variable double_zero : double.
Variable kPerfPeriodMultiplier : double.
Variable double_of_int64 : Z -> double.
Variable double_of_uint64 : Z -> double.
Variable double_div : double -> double -> double.
Variable double_mul : double -> double -> double.
Variable uint64_of_double : double -> Z.
Variable DecodeRawETWKernelPayload :
  string -> Z -> Z -> bool -> option (list byte) -> nat ->
  option (string * string * event.Value).
Variable OpenTrace : wstring -> option LogfileHeader.
Variable ProcessTrace : list wstring -> list EVENT_RECORD.

(** Opening the trace files leaves the baseline alone, so [ProcessTrace]
    starts with the baseline that [Parse] was entered with: zero, on a new
    parser and after every [Parse]. *)
Lemma open_traces_baseline (p : ETWParser double)
    (traces handles : list wstring) :
  first_event_raw_ts_
    (snd (open_traces kPerfPeriodMultiplier double_of_int64 double_div
            OpenTrace p traces handles))
  = first_event_raw_ts_ p.
Proof.
  revert p handles; induction traces as [|trace rest IH];
    intros p handles; simpl; [reflexivity|].
  destruct (OpenTrace trace) as [h|]; [|reflexivity].
  rewrite IH. reflexivity.
Qed.

Lemma Parse_resets_baseline (p : ETWParser double) :
  first_event_raw_ts_
    (snd (Parse double_zero kPerfPeriodMultiplier double_of_int64
            double_of_uint64 double_div double_mul uint64_of_double
            DecodeRawETWKernelPayload OpenTrace ProcessTrace p)) = 0 /\
  first_event_raw_ts_ (ETWParser_new double_zero) = 0.
Proof.
  unfold etw.Parse.
  destruct (open_traces _ _ _ _ p (traces_ p) []) as [[error handles] p1].
  split; reflexivity.
Qed.

Local Abbreviation ProcessEvent :=
  (etw.ProcessEvent double_of_uint64 double_mul uint64_of_double
     DecodeRawETWKernelPayload).
Local Abbreviation process_records :=
  (etw.process_records double_of_uint64 double_mul uint64_of_double
     DecodeRawETWKernelPayload).
Local Abbreviation Parse :=
  (etw.Parse double_zero kPerfPeriodMultiplier double_of_int64
     double_of_uint64 double_div double_mul uint64_of_double
     DecodeRawETWKernelPayload OpenTrace ProcessTrace).

(** C7. [Parse] on a parser with one trace file, which opens with header
    [h], and no baseline yet. [T0_system] is the start time of the header
    and [P] the double [kPerfPeriodMultiplier / PerfFreq]; the events
    sent are those of the records that [ProcessTrace] delivers, handled
    in order from there. For every delivered record, with raw timestamp
    [Traw]: when it arrives the parser still holds [T0_system] and [P];
    the baseline [T0_raw_first] used for it is the first nonzero raw
    timestamp among the records up to and including it; its event, if it
    has one, stands between the events of the records before it and those
    of the records after it; and the timestamp of that event is
    [T0_system + uint64 (double (Traw - T0_raw_first) * P)], the
    difference and the sum in 64-bit unsigned arithmetic, the product in
    doubles and then cast to an unsigned 64-bit integer. *)
Theorem Parse_timestamp (p : ETWParser double) (trace : wstring)
    (h : LogfileHeader) :
  traces_ p = [trace] ->
  OpenTrace trace = Some h ->
  first_event_raw_ts_ p = 0 ->
  let T0_system := wrap64 (StartTime h) in
  let P := double_div kPerfPeriodMultiplier (double_of_int64 (PerfFreq h)) in
  let started := mkETWParser [trace] T0_system 0 P in
  fst (Parse p) = snd (process_records started (ProcessTrace [trace])) /\
  forall before pevent after,
    ProcessTrace [trace] = before ++ pevent :: after ->
    let arrived := fst (process_records started before) in
    let Traw := raw_ts pevent in
    let T0_raw_first := first_nonzero (map raw_ts (before ++ [pevent])) in
    first_event_system_ts_ arrived = T0_system /\
    perf_period_ arrived = P /\
    first_event_raw_ts_ (fst (ProcessEvent arrived pevent)) = T0_raw_first /\
    fst (Parse p) =
      snd (process_records started before) ++
      match snd (ProcessEvent arrived pevent) with
      | Some e => [e]
      | None => []
      end ++
      snd (process_records (fst (ProcessEvent arrived pevent)) after) /\
    forall e, snd (ProcessEvent arrived pevent) = Some e ->
      event.timestamp e =
      add64 T0_system
        (uint64_of_double
           (double_mul (double_of_uint64 (sub64 Traw T0_raw_first)) P)).
Proof.
  intros Ht Hopen Hraw T0_system P started.
  assert (Hparse : fst (Parse p) =
                   snd (process_records started (ProcessTrace [trace]))).
  { unfold etw.Parse. rewrite Ht. simpl. rewrite Hopen. simpl.
    rewrite Ht, Hraw. reflexivity. }
  split; [exact Hparse|].
  intros before pevent after Hrecords arrived Traw T0_raw_first.
  destruct (process_records_keeps double_of_uint64 double_mul
              uint64_of_double DecodeRawETWKernelPayload started before)
    as [Hsystem Hperiod].
  fold arrived in Hsystem, Hperiod.
  assert (Hbase : first_event_raw_ts_ (fst (ProcessEvent arrived pevent))
                  = T0_raw_first).
  { pose proof (process_records_baseline double_of_uint64 double_mul
                  uint64_of_double DecodeRawETWKernelPayload started
                  (before ++ [pevent])) as Hb.
    rewrite process_records_app, process_records_cons in Hb.
    exact Hb. }
  split; [exact Hsystem|]. split; [exact Hperiod|]. split; [exact Hbase|].
  split.
  - rewrite Hparse, Hrecords, process_records_app, process_records_cons.
    reflexivity.
  - intros e He.
    rewrite (ProcessEvent_timestamp _ _ _ _ _ _ _ He).
    rewrite ProcessEvent_parser in Hbase.
    unfold etw.system_ts. rewrite Hbase.
    destruct (latch_raw_ts_keeps arrived pevent) as [-> ->].
    rewrite Hsystem, Hperiod. reflexivity.
Qed.

End Parse.

Lemma Parse_timestamp_witness :
  let started :=
    mkETWParser [examples.trace_path] 130317334947711037 0
      (SpecFloat.SFdiv 53 1024 (examples.binary64_of_Z 10000000)
         (examples.binary64_of_Z 2533369)) in
  let arrived :=
    fst (etw.process_records examples.binary64_of_Z
           (SpecFloat.SFmul 53 1024) examples.binary64_to_uint64
           etw.DecodeRawETWKernelPayload started
           [examples.debugger_enabled_record 0;
            examples.debugger_enabled_record 5000]) in
  option_map event.timestamp
    (snd (etw.ProcessEvent examples.binary64_of_Z
            (SpecFloat.SFmul 53 1024) examples.binary64_to_uint64
            etw.DecodeRawETWKernelPayload arrived
            (examples.debugger_enabled_record 2538369)))
  = Some 130317334957711037 /\
  map event.timestamp
    (fst (examples.test_parse
            (mkETWParser [examples.trace_path] 0 0
               (SpecFloat.S754_zero false))))
  = [130317334947711037; 130317334947711037; 130317334957711037].
Proof.
  intros started arrived.
  destruct (Parse_timestamp (SpecFloat.S754_zero false)
              (examples.binary64_of_Z 10000000) examples.binary64_of_Z
              examples.binary64_of_Z (SpecFloat.SFdiv 53 1024)
              (SpecFloat.SFmul 53 1024) examples.binary64_to_uint64
              etw.DecodeRawETWKernelPayload examples.test_open_trace
              examples.test_process_trace
              (mkETWParser [examples.trace_path] 0 0
                 (SpecFloat.S754_zero false))
              examples.trace_path
              (mkLogfileHeader 130317334947711037 2533369)
              eq_refl eq_refl eq_refl) as [Hparse Hrecord].
  split.
  - destruct (Hrecord
                [examples.debugger_enabled_record 0;
                 examples.debugger_enabled_record 5000]
                (examples.debugger_enabled_record 2538369) [] eq_refl)
      as (_ & _ & _ & _ & Hts).
    fold started arrived in Hts.
    destruct (snd (etw.ProcessEvent examples.binary64_of_Z
                     (SpecFloat.SFmul 53 1024) examples.binary64_to_uint64
                     etw.DecodeRawETWKernelPayload arrived
                     (examples.debugger_enabled_record 2538369)))
      as [e|] eqn:He.
    + cbn [option_map]. rewrite (Hts e He). vm_compute. reflexivity.
    + vm_compute in He. discriminate He.
  - vm_compute. reflexivity.
Defined.

Lemma baseline_is_first_nonzero_raw_timestamp_witness :
  let records :=
    [examples.debugger_enabled_record 0;
     examples.debugger_enabled_record 5000;
     examples.debugger_enabled_record 2538369] in
  first_event_raw_ts_ (fst (examples.process_test_records records)) = 5000
  /\ map event.timestamp (snd (examples.process_test_records records)) =
     [130317334947711037; 130317334947711037; 130317334957711037].
Proof.
  split.
  - apply (proj1 (proj2 (proj2
      (baseline_is_first_nonzero_raw_timestamp
         examples.binary64_of_Z (SpecFloat.SFmul 53 1024)
         examples.binary64_to_uint64 etw.DecodeRawETWKernelPayload)))
      examples.started_parser). reflexivity.
  - vm_compute. reflexivity.
Defined.

End etw_facts.
